(** * EnvValidation: environment validation against discovered schemas

    A shallow embedding of the [EnvValidation] class of open-press
    (the class that extends [Hookable<EnvValidationHooksCallback>]):
    its two ordered sets (resolution paths and config file filters), the
    schema resolver and the fail-fast validation loop.

    The class is stateful and throws, so its methods are embedded in a
    small monad that threads the object state, may end in an exception and
    records, in order, every call the class makes on a collaborator
    (directory listing, module loading, pattern test, schema validation,
    hook trigger).

    - The host ([path.resolve], [fs.readdirSync], the evaluation of a
      module file) is a parameter of the methods.
    - [require] keeps its module cache, and a [RegExp] object its
      [lastIndex], in the state: both outlive a call to [validateEnv].
    - [Hookable], [tap] and the hook constants are not part of the sources
      and are modelled from the spec; an observer may throw. *)

From Stdlib Require Import ZArith.
From stdpp Require Import gmap strings list fin_maps.

Open Scope string_scope.
Open Scope list_scope.

(** ** JavaScript values and collaborators *)

(** Values stored in the environment bag ([Record<string, any>]). *)
Inductive JsValue :=
| JsUndefined
| JsNull
| JsBoolean (b : bool)
| JsNumber (n : Z)
| JsString (s : string).

(** The environment bag: a mapping from variable name to value. *)
Abbreviation Env := (gmap string JsValue).

(** [schema.validate(config, { allowUnknown: true })] of joi: the options
    object, the error it may report and the result object whose [error]
    field [validateEnv] destructures. *)
Record ValidationOptions := { allowUnknown : bool }.

Record ValidationError := { message : string }.

Record ValidationResult := { error : option ValidationError; value : Env }.

(** A schema is an opaque object with one method, [validate]. *)
Record ObjectSchema := {
  validate : Env -> ValidationOptions -> ValidationResult
}.

(** The values of a module's [validationSchema] export that JavaScript
    treats as false in [config.validationSchema || null]. A missing export
    reads as [undefined]. *)
Inductive JsFalsy :=
| falsy_undefined
| falsy_null
| falsy_false
| falsy_zero
| falsy_NaN
| falsy_empty_string.

(** What [config.validationSchema] reads from a loaded module: a falsy
    value, or a schema object (the method casts every remaining export to
    [Joi.ObjectSchema]). *)
Inductive Exported :=
| NoSchema (v : JsFalsy)
| SchemaObject (schema : ObjectSchema).

Record ConfigModule := { validationSchema : Exported }.

(** A [RegExp] object. [regexp_id] is the identity of the object,
    [source] its pattern text, [global] and [sticky] the [g] and [y] flags.
    [matcher str i] is the pattern's matcher run on [str] at index [i]: the
    end index of the match that starts exactly at [i], if there is one. The
    mutable [lastIndex] property lives in the object store, see [State]. *)
Record RegExp := {
  regexp_id : nat;
  source : string;
  global : bool;
  sticky : bool;
  matcher : string -> nat -> option nat
}.

(** Thrown values. *)
Inductive Exn :=
| FilesystemError (msg : string)
| ModuleLoadError (msg : string)
| ObserverError (msg : string)
| Error (msg : string).

(** Modelled from the spec: the constants of [ENV_VALIDATION_HOOK]
    (./constants is not part of the sources), one per row of the table of
    exposed hook events. *)
Inductive ENV_VALIDATION_HOOK :=
| validate_before
| configuration_resolved_files
| configuration_loaded_schemas
| validate_schema
| validate_after.

Global Instance ENV_VALIDATION_HOOK_eq_dec : EqDecision ENV_VALIDATION_HOOK.
Proof. solve_decision. Defined.

(** The payload objects built at the five [trigger] call sites. *)
Inductive Payload :=
| PayloadConfig (config : Env)
| PayloadFiles (files : list string)
| PayloadSchemas (schemas : list ObjectSchema)
| PayloadSchema (schema : ObjectSchema) (config : Env)
                (error : option ValidationError).

(** Modelled from the spec: a callback registered on the [Hookable] base
    class (not part of the sources). An observer inspects the payload and
    returns, or throws. Observers that call back into the orchestrator are
    outside this development. *)
Definition Observer := Payload -> option Exn.

(** ** State, effects and the monad *)

(** The calls the class makes on its collaborators, in program order. *)
Inductive Effect :=
| Triggered (hook : ENV_VALIDATION_HOOK) (payload : Payload)
| Listed (cwd : string)
| Tested (filter : RegExp) (file : string) (passed : bool)
| Required (id : string)
| Validated (schema : ObjectSchema) (config : Env) (options : ValidationOptions).

(** The object and the part of the JavaScript heap its methods touch:
    the two private arrays, the callbacks held by [Hookable], the
    [lastIndex] property of every [RegExp] object (by identity) and the
    module cache of [require]. *)
Record State := {
  config_file_filters : list RegExp;
  resolution_paths : list string;
  hooks : ENV_VALIDATION_HOOK -> list Observer;
  lastIndex : gmap nat nat;
  require_cache : gmap string ConfigModule
}.

Definition set_config_file_filters (fs : list RegExp) (s : State) : State :=
  {| config_file_filters := fs;
     resolution_paths := resolution_paths s;
     hooks := hooks s;
     lastIndex := lastIndex s;
     require_cache := require_cache s |}.

Definition set_resolution_paths (ps : list string) (s : State) : State :=
  {| config_file_filters := config_file_filters s;
     resolution_paths := ps;
     hooks := hooks s;
     lastIndex := lastIndex s;
     require_cache := require_cache s |}.

Definition set_hooks (h : ENV_VALIDATION_HOOK -> list Observer) (s : State) : State :=
  {| config_file_filters := config_file_filters s;
     resolution_paths := resolution_paths s;
     hooks := h;
     lastIndex := lastIndex s;
     require_cache := require_cache s |}.

Definition set_lastIndex (li : gmap nat nat) (s : State) : State :=
  {| config_file_filters := config_file_filters s;
     resolution_paths := resolution_paths s;
     hooks := hooks s;
     lastIndex := li;
     require_cache := require_cache s |}.

Definition set_require_cache (c : gmap string ConfigModule) (s : State) : State :=
  {| config_file_filters := config_file_filters s;
     resolution_paths := resolution_paths s;
     hooks := hooks s;
     lastIndex := lastIndex s;
     require_cache := c |}.

(** The result of running a method: how it ended (a thrown value or a
    returned one), the state it left and the effects it performed. *)
Record Run (A : Type) := MkRun {
  outcome : Exn + A;
  final : State;
  trace : list Effect
}.
Arguments MkRun {A}.
Arguments outcome {A}.
Arguments final {A}.
Arguments trace {A}.

Definition M (A : Type) : Type := State -> Run A.

Definition ret {A} (a : A) : M A :=
  fun s => MkRun (inr a) s [].

Definition throw {A} (e : Exn) : M A :=
  fun s => MkRun (inl e) s [].

Definition bind {A B} (m : M A) (k : A -> M B) : M B :=
  fun s =>
    let r := m s in
    match outcome r with
    | inl e => MkRun (inl e) (final r) (trace r)
    | inr a =>
        let r' := k a (final r) in
        MkRun (outcome r') (final r') (trace r ++ trace r')
    end.

Definition perform (e : Effect) : M unit :=
  fun s => MkRun (inr tt) s [e].

Declare Scope js_scope.
Delimit Scope js_scope with js.
Notation "x <- m ;; k" := (bind m (fun x => k))
  (at level 100, m at next level, right associativity) : js_scope.
Notation "m ;;; k" := (bind m (fun _ => k))
  (at level 100, right associativity) : js_scope.
Open Scope js_scope.

(** ** Array methods with effectful callbacks *)

(** [array.forEach(f)]: a throwing callback ends the loop. *)
Fixpoint Array_forEach {A} (l : list A) (f : A -> M unit) : M unit :=
  match l with
  | [] => ret tt
  | x :: l' => f x ;;; Array_forEach l' f
  end.

(** [array.map(f)]. *)
Fixpoint Array_map {A B} (l : list A) (f : A -> M B) : M (list B) :=
  match l with
  | [] => ret []
  | x :: l' => y <- f x ;; ys <- Array_map l' f ;; ret (y :: ys)
  end.

(** [array.filter(p)]. *)
Fixpoint Array_filter {A} (l : list A) (p : A -> M bool) : M (list A) :=
  match l with
  | [] => ret []
  | x :: l' =>
      b <- p x ;; xs <- Array_filter l' p ;; ret (if b then x :: xs else xs)
  end.

(** [array.some(p)]: stops at the first element on which [p] holds. *)
Fixpoint Array_some {A} (l : list A) (p : A -> M bool) : M bool :=
  match l with
  | [] => ret false
  | x :: l' => b <- p x ;; if b then ret true else Array_some l' p
  end.

(** [array.flat()] on an array of arrays. *)
Definition Array_flat {A} (l : list (list A)) : list A := concat l.

Definition gets {A} (f : State -> A) : M A :=
  fun s => MkRun (inr (f s)) s [].

(** ** RegExp.prototype.test *)

(** The search loop of RegExpBuiltinExec (ECMA-262): try the matcher at
    index [i]; on failure a sticky pattern gives up, any other pattern
    advances by one index, until the index passes the end of the string
    ([fuel] counts the indices left to try). *)
Fixpoint RegExpBuiltinExec_search (m : nat -> option nat) (y : bool)
    (i fuel : nat) : option nat :=
  match fuel with
  | 0 => None
  | S fuel' =>
      match m i with
      | Some e => Some e
      | None => if y then None else RegExpBuiltinExec_search m y (S i) fuel'
      end
  end.

(** Where a test of [filter] starts: at the object's [lastIndex] when the
    pattern carries the [g] or [y] flag, at 0 otherwise. *)
Definition RegExp_start (filter : RegExp) (s : State) : nat :=
  if global filter || sticky filter
  then default 0 (lastIndex s !! regexp_id filter)
  else 0.

(** [filter.test(str)]. With the [g] or [y] flag the object's [lastIndex]
    is set to the end of the match on success and to 0 on failure; without
    them it is neither read nor written. *)
Definition RegExp_test (filter : RegExp) (str : string) : M bool :=
  fun s =>
    let start := RegExp_start filter s in
    let found :=
      RegExpBuiltinExec_search (matcher filter str) (sticky filter)
        start (S (String.length str) - start) in
    let passed := match found with Some _ => true | None => false end in
    let s' :=
      if global filter || sticky filter
      then set_lastIndex (<[regexp_id filter := default 0 found]> (lastIndex s)) s
      else s in
    MkRun (inr passed) s' [Tested filter str passed].

(** The pattern of the filter the constructor installs,
    [/\.config\.(ts|js)$/]: a match starting at [i] exists when the rest of
    the string from [i] is [.config.ts] or [.config.js], and it ends at the
    end of the string. *)
Definition config_suffix_matcher (str : string) (i : nat) : option nat :=
  let rest := String.substring i (String.length str - i) str in
  if String.eqb rest ".config.ts" || String.eqb rest ".config.js"
  then Some (String.length str)
  else None.

Definition default_config_file_filter : RegExp :=
  {| regexp_id := 0;
     source := "\.config\.(ts|js)$";
     global := false;
     sticky := false;
     matcher := config_suffix_matcher |}.

(** ** Hookable *)

(** Modelled from the spec: [Hookable.on] (not part of the sources)
    registers a callback for an event kind, after those already there. *)
Definition on (hook : ENV_VALIDATION_HOOK) (callback : Observer) (s : State) : State :=
  set_hooks
    (fun h => if decide (h = hook) then hooks s h ++ [callback] else hooks s h) s.

(** Calls the callbacks in order; the first one that throws ends the call. *)
Fixpoint notify (callbacks : list Observer) (payload : Payload) : M unit :=
  match callbacks with
  | [] => ret tt
  | callback :: rest =>
      match callback payload with
      | Some e => throw e
      | None => notify rest payload
      end
  end.

(** Modelled from the spec: [Hookable.trigger] (not part of the sources)
    calls all callbacks registered for the event kind, in registration
    order, synchronously; a throwing callback is not isolated. *)
Definition trigger (hook : ENV_VALIDATION_HOOK) (payload : Payload) : M unit :=
  perform (Triggered hook payload) ;;;
  callbacks <- gets (fun s => hooks s hook) ;;
  notify callbacks payload.

(** Modelled from the spec: [tap] of @override/utility (not part of the
    sources) hands the value to the callback and evaluates to the value. *)
Definition tap {A} (value : A) (callback : A -> M unit) : M A :=
  callback value ;;; ret value.

(** ** The two ordered sets *)

Definition configFileFilters (s : State) : list RegExp := config_file_filters s.

Definition resolutionPaths (s : State) : list string := resolution_paths s.

Definition addResolutionPath (path : string) (s : State) : State :=
  set_resolution_paths (resolution_paths s ++ [path]) s.

Definition addResolutionPaths (paths : list string) (s : State) : State :=
  fold_left (fun this path => addResolutionPath path this) paths s.

Definition removeResolutionPath (path : string) (s : State) : State :=
  set_resolution_paths
    (filter (fun p => p ≠ path) (resolution_paths s)) s.

Definition clearResolutionPaths (s : State) : State :=
  set_resolution_paths [] s.

Definition addConfigFileFilter (filter : RegExp) (s : State) : State :=
  set_config_file_filters (config_file_filters s ++ [filter]) s.

Definition addConfigFileFilters (filters : list RegExp) (s : State) : State :=
  fold_left (fun this filter => addConfigFileFilter filter this) filters s.

Definition removeConfigFileFilter (filter : RegExp) (s : State) : State :=
  set_config_file_filters
    (base.filter (fun f => source f ≠ source filter) (config_file_filters s)) s.

Definition clearConfigFileFilters (s : State) : State :=
  set_config_file_filters [] s.

(** [config.validationSchema || null]. *)
Definition validationSchema_or_null (config : ConfigModule) : option ObjectSchema :=
  match validationSchema config with
  | NoSchema _ => None
  | SchemaObject schema => Some schema
  end.

(** [.filter(schema => schema !== null) as Joi.ObjectSchema[]]. *)
Definition not_null {A} (l : list (option A)) : list A := omap id l.

(** [passesConfigFileFilters]. *)
Definition passesConfigFileFilters (file : string) : M bool :=
  filters <- gets config_file_filters ;;
  Array_some filters (fun filter => RegExp_test filter file).

(** The message of the error thrown at a failing schema. *)
Definition validation_error_message (e : ValidationError) : string :=
  "Config validation error: " +:+ message e.

Section Host.

(** The host the class runs on: [path.resolve], [fs.readdirSync], the
    evaluation of a module file by [require] on a cache miss, and the
    directory of the class's own file. *)
Variable path_resolve : list string -> string.
Variable readdirSync : string -> Exn + list string.
Variable load : string -> Exn + ConfigModule.
Variable __dirname : string.

(** The private constructor, run once by the [instance] accessor, on the
    fields' initial values. *)
Definition constructor : State :=
  addResolutionPaths [__dirname; path_resolve [__dirname; ".."]]
    (addConfigFileFilters [default_config_file_filter]
       {| config_file_filters := [];
          resolution_paths := [];
          hooks := fun _ => [];
          lastIndex := ∅;
          require_cache := ∅ |}).

Definition readdir (cwd : string) : M (list string) :=
  perform (Listed cwd) ;;;
  match readdirSync cwd with
  | inl e => throw e
  | inr entries => ret entries
  end.

(** [require(id)]: the cached module if there is one; otherwise the file
    is evaluated and cached unless its evaluation throws. *)
Definition require (id : string) : M ConfigModule :=
  perform (Required id) ;;;
  cache <- gets require_cache ;;
  match cache !! id with
  | Some m => ret m
  | None =>
      match load id with
      | inl e => throw e
      | inr m => fun s => MkRun (inr m) (set_require_cache (<[id := m]> cache) s) []
      end
  end.

(** The callback [resolveConfigValidationSchema] maps over the
    resolution paths. *)
Definition resolve_path (path : string) : M (list ObjectSchema) :=
  let cwd := path_resolve [path] in
  entries <- readdir cwd ;;
  config_files <- Array_filter entries (fun value => passesConfigFileFilters value) ;;
  trigger configuration_resolved_files (PayloadFiles config_files) ;;;
  modules <- Array_map config_files (fun file => require (path_resolve [cwd; file])) ;;
  tap (not_null (map validationSchema_or_null modules))
      (fun schemas => trigger configuration_loaded_schemas (PayloadSchemas schemas)).

Definition resolveConfigValidationSchema : M (list ObjectSchema) :=
  paths <- gets resolution_paths ;;
  per_path <- Array_map paths resolve_path ;;
  ret (Array_flat per_path).

(** The callback [validateEnv] runs on each resolved schema. *)
Definition validate_one (config : Env) (schema : ObjectSchema) : M unit :=
  let options := {| allowUnknown := true |} in
  perform (Validated schema config options) ;;;
  let error := error (validate schema config options) in
  trigger validate_schema (PayloadSchema schema config error) ;;;
  match error with
  | Some e => throw (Error (validation_error_message e))
  | None => ret tt
  end.

Definition validateEnv (config : Env) : M Env :=
  trigger validate_before (PayloadConfig config) ;;;
  schemas <- resolveConfigValidationSchema ;;
  Array_forEach schemas (validate_one config) ;;;
  trigger validate_after (PayloadConfig config) ;;;
  ret config.

End Host.

(** ** Reading a run *)

(** The payloads of the [hook] events of a trace, in firing order. *)
Definition hook_payloads (hook : ENV_VALIDATION_HOOK) (t : list Effect) : list Payload :=
  omap (fun e =>
          match e with
          | Triggered h payload => if decide (h = hook) then Some payload else None
          | _ => None
          end) t.

(** The schemas on which [validate] was invoked, in invocation order. *)
Definition validated_schemas (t : list Effect) : list ObjectSchema :=
  omap (fun e => match e with Validated schema _ _ => Some schema | _ => None end) t.

(** The module identifiers passed to [require], in call order. *)
Definition required_ids (t : list Effect) : list string :=
  omap (fun e => match e with Required id => Some id | _ => None end) t.

(** The strings on which a filter was tested, in call order. *)
Definition tested_files (t : list Effect) : list string :=
  omap (fun e => match e with Tested _ file _ => Some file | _ => None end) t.

(** The file lists carried by the [configuration_resolved_files] events,
    one per event, in firing order. *)
Definition reported_file_lists (t : list Effect) : list (list string) :=
  omap (fun p => match p with PayloadFiles files => Some files | _ => None end)
       (hook_payloads configuration_resolved_files t).

(** Every filename carried by a [configuration_resolved_files] payload. *)
Definition reported_files (t : list Effect) : list string :=
  concat (reported_file_lists t).

(** The error a schema reports on a configuration, as [validateEnv]
    reads it. *)
Definition reported_error (config : Env) (schema : ObjectSchema) : option ValidationError :=
  error (validate schema config {| allowUnknown := true |}).

(** No registered observer throws, whatever the payload. *)
Definition passive (s : State) : Prop :=
  ∀ hook callback payload, callback ∈ hooks s hook → callback payload = None.

(** A pattern object without the [g] and [y] flags: testing it neither
    reads nor writes [lastIndex]. *)
Definition stateless (filter : RegExp) : Prop :=
  global filter = false ∧ sticky filter = false.

(** A filename matches a filter: the pattern finds a match in the
    filename, searched from its start. *)
Definition pattern_matches (filter : RegExp) (file : string) : bool :=
  match RegExpBuiltinExec_search (matcher filter file) (sticky filter)
          0 (S (String.length file)) with
  | Some _ => true
  | None => false
  end.

(** A filename matches at least one filter of the set. *)
Definition matches_some_filter (filters : list RegExp) (file : string) : bool :=
  existsb (fun filter => pattern_matches filter file) filters.

(** The public operations of the object. *)
Inductive Call :=
| call_addResolutionPath (path : string)
| call_addResolutionPaths (paths : list string)
| call_removeResolutionPath (path : string)
| call_clearResolutionPaths
| call_addConfigFileFilter (filter : RegExp)
| call_addConfigFileFilters (filters : list RegExp)
| call_removeConfigFileFilter (filter : RegExp)
| call_clearConfigFileFilters
| call_on (hook : ENV_VALIDATION_HOOK) (callback : Observer)
| call_validateEnv (config : Env)
| call_configFileFilters
| call_resolutionPaths.

(** The add/remove/clear operations on the two sets. *)
Definition is_set_mutator (c : Call) : bool :=
  match c with
  | call_addResolutionPath _ | call_addResolutionPaths _
  | call_removeResolutionPath _ | call_clearResolutionPaths
  | call_addConfigFileFilter _ | call_addConfigFileFilters _
  | call_removeConfigFileFilter _ | call_clearConfigFileFilters => true
  | _ => false
  end.

Section HostReadings.

Variable path_resolve : list string -> string.
Variable readdirSync : string -> Exn + list string.
Variable load : string -> Exn + ConfigModule.

(** The state an operation leaves, whether it returns or throws. *)
Definition invoke (c : Call) (s : State) : State :=
  match c with
  | call_addResolutionPath path => addResolutionPath path s
  | call_addResolutionPaths paths => addResolutionPaths paths s
  | call_removeResolutionPath path => removeResolutionPath path s
  | call_clearResolutionPaths => clearResolutionPaths s
  | call_addConfigFileFilter filter => addConfigFileFilter filter s
  | call_addConfigFileFilters filters => addConfigFileFilters filters s
  | call_removeConfigFileFilter filter => removeConfigFileFilter filter s
  | call_clearConfigFileFilters => clearConfigFileFilters s
  | call_on hook callback => on hook callback s
  | call_validateEnv config =>
      final (validateEnv path_resolve readdirSync load config s)
  | call_configFileFilters => s
  | call_resolutionPaths => s
  end.

(** What [require(id)] evaluates to in a state: the cached module, or
    the result of evaluating the file. *)
Definition module_at (s : State) (id : string) : Exn + ConfigModule :=
  match require_cache s !! id with
  | Some m => inr m
  | None => load id
  end.

(** The schema a file of a resolution path contributes: the truthy
    [validationSchema] export of its module, if any. *)
Definition exported_schema (s : State) (path file : string) : option ObjectSchema :=
  match module_at s (path_resolve [path_resolve [path]; file]) with
  | inr m => validationSchema_or_null m
  | inl _ => None
  end.

(** The schemas of one resolution path, for the files kept there, in the
    order of the files. *)
Definition path_schemas (s : State) (path : string) (files : list string)
  : list ObjectSchema :=
  omap (exported_schema s path) files.

(** The entries [readdirSync] lists for a resolution path; none when the
    listing throws. *)
Definition entries_of (path : string) : list string :=
  match readdirSync (path_resolve [path]) with
  | inr entries => entries
  | inl _ => []
  end.

(** The resolved schema list, in the words of the spec: for each
    resolution path in stored order, the schemas of the entries that
    match a filter, in directory-listing order; an entry without a
    truthy export contributes nothing, and nothing is deduplicated. *)
Definition specified_schemas (s : State) : list ObjectSchema :=
  flat_map
    (fun path =>
       path_schemas s path
         (List.filter (matches_some_filter (config_file_filters s))
                      (entries_of path)))
    (resolution_paths s).

(** [path] is one of [paths], [file] is an entry of its directory, and
    [accept] holds of [file]. *)
Definition candidate (accept : string -> Prop) (paths : list string)
    (path file : string) : Prop :=
  path ∈ paths ∧ file ∈ entries_of path ∧ accept file.

(** What discovery may do, given which filenames the filters accept:
    test a filter on an entry of a resolution path, report accepted
    entries, and load accepted entries by the path resolved from their
    directory. *)
Definition resolver_effect (accept : string -> Prop) (paths : list string)
    (e : Effect) : Prop :=
  match e with
  | Tested _ file _ => ∃ path, path ∈ paths ∧ file ∈ entries_of path
  | Required id =>
      ∃ path file, candidate accept paths path file
                   ∧ id = path_resolve [path_resolve [path]; file]
  | Triggered _ (PayloadFiles files) =>
      ∀ file, file ∈ files → ∃ path, candidate accept paths path file
  | _ => True
  end.

End HostReadings.

(** ** A concrete host

    A small project tree, with the configuration modules of the spec's
    scenarios, on which the statements below are exercised. *)
Module Fixture.

(** [path.resolve] on segments: an absolute segment restarts the path,
    a relative one is appended (no [..] normalisation is needed here). *)
Definition resolve (segments : list string) : string :=
  fold_left
    (fun acc seg => if String.prefix "/" seg then seg else acc +:+ "/" +:+ seg)
    segments "/srv".

(** [Joi.object({ key: rule, ... })]: the first violated rule gives the
    error; keys without a rule are reported unless [allowUnknown]. *)
Definition joi_object (keys : list (string * (option JsValue -> option string)))
  : ObjectSchema :=
  {| validate := fun config options =>
       let violations := omap (fun kr => snd kr (config !! fst kr)) keys in
       let unknown :=
         if allowUnknown options then []
         else omap (fun k => if bool_decide (k ∈ keys.*1) then None
                             else Some (k +:+ " is not allowed"))
                   (map_to_list config).*1 in
       {| error := (fun m => {| message := m |}) <$> head (violations ++ unknown);
          value := config |} |}.

Definition port_rule (v : option JsValue) : option string :=
  match v with
  | Some (JsNumber n) =>
      if (1024 <=? n)%Z then None
      else Some "DB_PORT must be greater than or equal to 1024"
  | Some _ => Some "DB_PORT must be a number"
  | None => Some "DB_PORT is required"
  end.

Definition nonempty_rule (key : string) (v : option JsValue) : option string :=
  match v with
  | Some (JsString s) =>
      if String.eqb s "" then Some (key +:+ " is not allowed to be empty") else None
  | Some _ => Some (key +:+ " must be a string")
  | None => Some (key +:+ " is required")
  end.

Definition db_schema : ObjectSchema := joi_object [("DB_PORT", port_rule)].

Definition jwt_schema : ObjectSchema :=
  joi_object [("JWT_SECRET", nonempty_rule "JWT_SECRET")].

(** A second module that also constrains [DB_PORT]. *)
Definition replica_schema : ObjectSchema :=
  joi_object [("DB_PORT", port_rule); ("REPLICA_HOST", nonempty_rule "REPLICA_HOST")].

Definition readdirSync (cwd : string) : Exn + list string :=
  if String.eqb cwd "/app/config"
  then inr ["db.config.ts"; "jwt.config.ts"; "logger.config.js"; "readme.md"]
  else if String.eqb cwd "/app/solo" then inr ["db.config.ts"]
  else if String.eqb cwd "/app/replica" then inr ["replica.config.ts"]
  else if String.eqb cwd "/app/broken" then inr ["bad.config.ts"; "db.config.ts"]
  else inl (FilesystemError ("ENOENT: no such file or directory, scandir " +:+ cwd)).

Definition load (id : string) : Exn + ConfigModule :=
  if String.eqb id "/app/config/db.config.ts" then inr {| validationSchema := SchemaObject db_schema |}
  else if String.eqb id "/app/config/jwt.config.ts" then inr {| validationSchema := SchemaObject jwt_schema |}
  else if String.eqb id "/app/config/logger.config.js" then inr {| validationSchema := NoSchema falsy_undefined |}
  else if String.eqb id "/app/solo/db.config.ts" then inr {| validationSchema := SchemaObject db_schema |}
  else if String.eqb id "/app/replica/replica.config.ts" then inr {| validationSchema := SchemaObject replica_schema |}
  else if String.eqb id "/app/broken/db.config.ts" then inr {| validationSchema := SchemaObject db_schema |}
  else inl (ModuleLoadError ("Cannot load " +:+ id)).

(** A fresh object holding the given sets and no observer. *)
Definition object (filters : list RegExp) (paths : list string) : State :=
  {| config_file_filters := filters;
     resolution_paths := paths;
     hooks := fun _ => [];
     lastIndex := ∅;
     require_cache := ∅ |}.

(** [/\.config\.(ts|js)$/g]: the default pattern with the [g] flag. *)
Definition global_filter : RegExp :=
  {| regexp_id := 1;
     source := "\.config\.(ts|js)$";
     global := true;
     sticky := false;
     matcher := config_suffix_matcher |}.

(** [/readme/]: a match starting at [i] when the string reads [readme]
    from [i]. *)
Definition readme_filter : RegExp :=
  {| regexp_id := 2;
     source := "readme";
     global := false;
     sticky := false;
     matcher := fun str i =>
       if String.eqb (String.substring i 6 str) "readme" then Some (i + 6) else None |}.

Definition good_env : Env :=
  {[ "DB_PORT" := JsNumber 5432; "JWT_SECRET" := JsString "x" ]}.

Definition bad_port_env : Env :=
  {[ "DB_PORT" := JsNumber 80; "JWT_SECRET" := JsString "x" ]}.

Definition empty_secret_env : Env :=
  {[ "DB_PORT" := JsNumber 5432; "JWT_SECRET" := JsString "" ]}.

(** An observer that only looks, and one that vetoes by throwing. *)
Definition logger : Observer := fun _ => None.

Definition veto : Observer := fun _ => Some (ObserverError "veto").

(** The object of the spec's scenarios: the default filter, one
    resolution path, and an observer logging every checked schema. *)
Definition project : State :=
  on validate_schema logger (object [default_config_file_filter] ["/app/config"]).

Definition validateEnv := validateEnv resolve readdirSync load.

Definition resolveConfigValidationSchema :=
  resolveConfigValidationSchema resolve readdirSync load.

End Fixture.

(** ** Notions used by the proofs *)

(** The effects of one iteration of the validation loop. *)
Definition schema_events (config : Env) (schema : ObjectSchema) : list Effect :=
  [Validated schema config {| allowUnknown := true |};
   Triggered validate_schema
     (PayloadSchema schema config (reported_error config schema))].

(** The tests [passesConfigFileFilters] performs on a file when no filter
    is stateful: one per filter, up to the first that matches. *)
Fixpoint test_events (filters : list RegExp) (file : string) : list Effect :=
  match filters with
  | [] => []
  | filter :: rest =>
      Tested filter file (pattern_matches filter file)
        :: (if pattern_matches filter file then [] else test_events rest file)
  end.

(** Effects that belong to schema discovery: anything but a schema
    validation or one of the three [validate_*] events. *)
Definition discovery_effect (e : Effect) : Prop :=
  match e with
  | Triggered hook _ =>
      hook = configuration_resolved_files ∨ hook = configuration_loaded_schemas
  | Validated _ _ _ => False
  | _ => True
  end.

(** An effect that is not a hook event. *)
Definition quiet_effect (e : Effect) : Prop :=
  match e with
  | Triggered _ _ => False
  | _ => True
  end.

(** A computation all of whose effects satisfy [P]. *)
Definition emits {A} (P : Effect -> Prop) (m : M A) : Prop :=
  ∀ s, Forall P (trace (m s)).

(** A computation that leaves the state as it found it. *)
Definition inert {A} (m : M A) : Prop := ∀ s, final (m s) = s.

(** The two sets and the registered observers are the same in [s']
    as in [s]. *)
Definition same_object (s s' : State) : Prop :=
  config_file_filters s' = config_file_filters s
  ∧ resolution_paths s' = resolution_paths s
  ∧ hooks s' = hooks s.

Section HostNotions.

Variable load : string -> Exn + ConfigModule.

(** [s'] differs from [s] at most in [lastIndex] properties and in
    modules that [require] has cached since. *)
Definition unchanged (s s' : State) : Prop :=
  same_object s s' ∧ ∀ id, module_at load s' id = module_at load s id.

(** A computation that changes nothing but [lastIndex] properties and
    the module cache, and the latter only by caching what it loaded. *)
Definition steady {A} (m : M A) : Prop := ∀ s, unchanged s (final (m s)).

(** A computation that, with filters that are all stateless, ends the
    same way and performs the same effects from any two states that
    differ at most in [lastIndex] properties and cached modules. *)
Definition agrees {A} (m : M A) : Prop :=
  ∀ s s', unchanged s s' → Forall stateless (config_file_filters s) →
          outcome (m s') = outcome (m s) ∧ trace (m s') = trace (m s).

End HostNotions.

(** ** Further notions *)

(** The operations that add to, remove from or clear the resolution
    path set, and those on the config file filter set. *)
Definition is_path_mutator (c : Call) : bool :=
  match c with
  | call_addResolutionPath _ | call_addResolutionPaths _
  | call_removeResolutionPath _ | call_clearResolutionPaths => true
  | _ => false
  end.

Definition is_filter_mutator (c : Call) : bool :=
  match c with
  | call_addConfigFileFilter _ | call_addConfigFileFilters _
  | call_removeConfigFileFilter _ | call_clearConfigFileFilters => true
  | _ => false
  end.

(** The directories passed to [readdirSync], in call order. *)
Definition listed_dirs (t : list Effect) : list string :=
  omap (fun e => match e with Listed cwd => Some cwd | _ => None end) t.

(** The kinds of the hook events of a trace, in firing order. *)
Definition fired_hooks (t : list Effect) : list ENV_VALIDATION_HOOK :=
  omap (fun e => match e with Triggered hook _ => Some hook | _ => None end) t.

(** An effect other than a directory listing. *)
Definition not_listing (e : Effect) : Prop :=
  match e with
  | Listed _ => False
  | _ => True
  end.

(** What a call to [validateEnv(config)] hands to its collaborators: the
    schemas are validated on [config] itself, tolerating unknown keys, and
    every event carries the payload of its kind, with [config] itself and
    the error the schema reported. *)
Definition well_formed_effect (config : Env) (e : Effect) : Prop :=
  match e with
  | Validated _ c options => c = config ∧ options = {| allowUnknown := true |}
  | Triggered validate_before payload => payload = PayloadConfig config
  | Triggered validate_after payload => payload = PayloadConfig config
  | Triggered validate_schema payload =>
      ∃ schema, payload = PayloadSchema schema config (reported_error config schema)
  | Triggered configuration_resolved_files payload =>
      ∃ files, payload = PayloadFiles files
  | Triggered configuration_loaded_schemas payload =>
      ∃ schemas, payload = PayloadSchemas schemas
  | _ => True
  end.

(** The effects of the validation loop and of the closing event. *)
Definition validation_effect (e : Effect) : Prop :=
  match e with
  | Validated _ _ _ => True
  | Triggered validate_schema _ => True
  | Triggered validate_after _ => True
  | _ => False
  end.

Section HostFailures.

Variable readdirSync : string -> Exn + list string.
Variable load : string -> Exn + ConfigModule.

(** The error a call on the host ran into, if it failed: the error of
    [readdirSync] for a listing, the error of the module's evaluation for
    a [require] of a module that is not cached. *)
Definition failure_of (s0 : State) (e : Effect) : option Exn :=
  match e with
  | Listed cwd =>
      match readdirSync cwd with inl x => Some x | inr _ => None end
  | Required id =>
      match module_at load s0 id with inl x => Some x | inr _ => None end
  | _ => None
  end.

(** A run in which a failed call on the host is the last effect, and
    whose outcome is the error of that call. *)
Definition stops_at_failure (s0 : State) {A} (r : Run A) : Prop :=
  ∀ t1 ev t2 x,
    trace r = t1 ++ ev :: t2 → failure_of s0 ev = Some x →
    t2 = [] ∧ outcome r = inl x.

Definition fail_fast (s0 : State) {A} (m : M A) : Prop :=
  ∀ s, unchanged load s0 s → stops_at_failure s0 (m s).

End HostFailures.

(** An effect of a pass that finds no file to load: a directory listing,
    or an event other than [validate_schema] whose file list, if it
    carries one, is empty. *)
Definition idle_effect (e : Effect) : Prop :=
  match e with
  | Listed _ => True
  | Triggered _ (PayloadFiles files) => files = []
  | Triggered _ (PayloadSchema _ _ _) => False
  | Triggered _ _ => True
  | _ => False
  end.

(** ** The JWT options of the authentication module *)

(** The [useFactory] callback that [AuthModule] hands to
    [JwtModule.registerAsync]. The fields of the injected configuration
    are read as they are, whatever they hold; a property that an object
    literal does not list is absent from the object ([None]). *)
Module AuthModule.

Record AuthConfigJwt := {
  encryption : JsValue;
  secret : JsValue;
  public_key : JsValue;
  private_key : JsValue;
  audience : JsValue;
  expires_in : JsValue;
  issuer : JsValue;
  algorithm : JsValue
}.

Record AuthConfig := { jwt : AuthConfigJwt }.

Record SignOptions := {
  sign_audience : JsValue;
  sign_expiresIn : JsValue;
  sign_issuer : JsValue;
  sign_algorithm : JsValue
}.

Record JwtModuleOptions := {
  options_secret : option JsValue;
  options_publicKey : option JsValue;
  options_privateKey : option JsValue;
  options_signOptions : SignOptions
}.

(** [a === b] on the values of the bag. *)
Definition strict_equal (a b : JsValue) : bool :=
  match a, b with
  | JsUndefined, JsUndefined => true
  | JsNull, JsNull => true
  | JsBoolean x, JsBoolean y => Bool.eqb x y
  | JsNumber x, JsNumber y => Z.eqb x y
  | JsString x, JsString y => String.eqb x y
  | _, _ => false
  end.

Definition useFactory (auth_config : AuthConfig) : JwtModuleOptions :=
  if strict_equal (encryption (jwt auth_config)) (JsString "symmetric")
  then
    {| options_secret := Some (secret (jwt auth_config));
       options_publicKey := None;
       options_privateKey := None;
       options_signOptions :=
         {| sign_audience := audience (jwt auth_config);
            sign_expiresIn := expires_in (jwt auth_config);
            sign_issuer := issuer (jwt auth_config);
            sign_algorithm := algorithm (jwt auth_config) |} |}
  else
    {| options_secret := None;
       options_publicKey := Some (public_key (jwt auth_config));
       options_privateKey := Some (private_key (jwt auth_config));
       options_signOptions :=
         {| sign_audience := audience (jwt auth_config);
            sign_expiresIn := expires_in (jwt auth_config);
            sign_issuer := issuer (jwt auth_config);
            sign_algorithm := algorithm (jwt auth_config) |} |}.

(** A configuration for HMAC signing and one for a key pair. *)
Definition hmac_config : AuthConfig :=
  {| jwt := {| encryption := JsString "symmetric";
               secret := JsString "s3cret";
               public_key := JsUndefined;
               private_key := JsUndefined;
               audience := JsString "open-press";
               expires_in := JsString "1h";
               issuer := JsString "open-press";
               algorithm := JsString "HS512" |} |}.

Definition key_pair_config : AuthConfig :=
  {| jwt := {| encryption := JsString "asymmetric";
               secret := JsString "s3cret";
               public_key := JsString "PUBLIC";
               private_key := JsString "PRIVATE";
               audience := JsString "open-press";
               expires_in := JsString "1h";
               issuer := JsString "open-press";
               algorithm := JsString "HS512" |} |}.

End AuthModule.

(** * Properties *)

(** ** The monad *)

Lemma bind_run {A B} (m : M A) (k : A -> M B) s :
  bind m k s =
  match outcome (m s) with
  | inl e => MkRun (inl e) (final (m s)) (trace (m s))
  | inr a =>
      MkRun (outcome (k a (final (m s)))) (final (k a (final (m s))))
            (trace (m s) ++ trace (k a (final (m s))))
  end.
Proof. reflexivity. Qed.

Lemma perform_bind {B} e (k : unit -> M B) s :
  bind (perform e) k s =
  MkRun (outcome (k tt s)) (final (k tt s)) (e :: trace (k tt s)).
Proof. reflexivity. Qed.

Lemma gets_bind {A B} (f : State -> A) (k : A -> M B) s :
  bind (gets f) k s = k (f s) s.
Proof. rewrite bind_run. simpl. by destruct (k (f s) s). Qed.

Lemma bind_inert {A B} (m : M A) (k : A -> M B) :
  inert m → (∀ a, inert (k a)) → inert (bind m k).
Proof.
  intros Hm Hk s. rewrite bind_run.
  destruct (outcome (m s)) as [e|a]; simpl.
  - apply Hm.
  - rewrite Hk. apply Hm.
Qed.

Lemma ret_inert {A} (a : A) : inert (ret a).
Proof. intros s. reflexivity. Qed.

Lemma throw_inert {A} e : inert (@throw A e).
Proof. intros s. reflexivity. Qed.

Lemma perform_inert e : inert (perform e).
Proof. intros s. reflexivity. Qed.

Lemma gets_inert {A} (f : State -> A) : inert (gets f).
Proof. intros s. reflexivity. Qed.

Lemma Array_forEach_inert {A} (l : list A) (f : A -> M unit) :
  (∀ x, inert (f x)) → inert (Array_forEach l f).
Proof.
  intros Hf. induction l as [|x l IH]; simpl.
  - apply ret_inert.
  - apply bind_inert; [apply Hf | intros _; apply IH].
Qed.

(** ** Hookable *)

Lemma notify_inert callbacks payload : inert (notify callbacks payload).
Proof.
  induction callbacks as [|cb rest IH]; simpl.
  - apply ret_inert.
  - destruct (cb payload); [apply throw_inert | apply IH].
Qed.

Lemma notify_trace callbacks payload s : trace (notify callbacks payload s) = [].
Proof.
  induction callbacks as [|cb rest IH]; simpl; [reflexivity|].
  destruct (cb payload); [reflexivity | apply IH].
Qed.

Lemma notify_quiet callbacks payload s :
  (∀ cb, cb ∈ callbacks → cb payload = None) →
  outcome (notify callbacks payload s) = inr tt.
Proof.
  induction callbacks as [|cb rest IH]; intros Hq; simpl; [reflexivity|].
  rewrite (Hq cb) by apply list_elem_of_here.
  apply IH. intros cb' Hin. apply Hq. by apply list_elem_of_further.
Qed.

Lemma trigger_inert hook payload : inert (trigger hook payload).
Proof.
  unfold trigger. apply bind_inert; [apply perform_inert|]. intros _.
  apply bind_inert; [apply gets_inert|]. intros cbs. apply notify_inert.
Qed.

Lemma trigger_trace hook payload s :
  trace (trigger hook payload s) = [Triggered hook payload].
Proof.
  unfold trigger. rewrite !bind_run; simpl.
  destruct (outcome (notify (hooks s hook) payload s)) eqn:E; simpl;
    by rewrite notify_trace.
Qed.

Lemma trigger_passive hook payload s :
  passive s → outcome (trigger hook payload s) = inr tt.
Proof.
  intros Hp. unfold trigger. rewrite !bind_run; simpl.
  rewrite notify_quiet; [reflexivity|]. intros cb Hin. by apply (Hp hook).
Qed.

(** A trigger, run from any state: the state is left alone, one event is
    recorded, and the outcome is that of the callbacks. *)
Lemma trigger_run hook payload s :
  trigger hook payload s =
  MkRun (outcome (trigger hook payload s)) s [Triggered hook payload].
Proof.
  pose proof (trigger_inert hook payload s) as Hf.
  pose proof (trigger_trace hook payload s) as Ht.
  destruct (trigger hook payload s) as [o f t]; simpl in *. by subst.
Qed.

Lemma trigger_bind {B} hook payload (k : unit -> M B) s :
  bind (trigger hook payload) k s =
  match outcome (trigger hook payload s) with
  | inl e => MkRun (inl e) s [Triggered hook payload]
  | inr _ =>
      MkRun (outcome (k tt s)) (final (k tt s))
            (Triggered hook payload :: trace (k tt s))
  end.
Proof.
  rewrite bind_run, trigger_run. cbn [outcome final trace].
  by destruct (outcome (trigger hook payload s)) as [?|[]].
Qed.

(** ** The validation loop *)

(** Case analysis on how the callbacks of a trigger ended. *)
Ltac case_trigger :=
  match goal with
  | |- context [outcome (trigger ?h ?p ?s)] =>
      destruct (outcome (trigger h p s)) as [?|[]]; cbn [outcome final trace]
  end.

Section Loop.

Variable path_resolve : list string -> string.
Variable readdirSync : string -> Exn + list string.
Variable load : string -> Exn + ConfigModule.

Lemma validate_one_inert config schema : inert (validate_one config schema).
Proof.
  unfold validate_one. apply bind_inert; [apply perform_inert|]. intros _.
  apply bind_inert; [apply trigger_inert|]. intros _.
  destruct (error _); [apply throw_inert | apply ret_inert].
Qed.

Lemma validate_one_trace config schema s :
  trace (validate_one config schema s) = schema_events config schema.
Proof.
  unfold validate_one, schema_events, reported_error.
  rewrite perform_bind, trigger_bind. cbn [trace].
  case_trigger; [reflexivity|].
  by destruct (error _).
Qed.

(** With observers that do not throw, one iteration ends as the schema
    decides. *)
Lemma validate_one_passive config schema s :
  passive s →
  outcome (validate_one config schema s) =
  match reported_error config schema with
  | Some e => inl (Error (validation_error_message e))
  | None => inr tt
  end.
Proof.
  intros Hp. unfold validate_one, reported_error.
  rewrite perform_bind, trigger_bind, trigger_passive by done.
  cbn [outcome]. by destruct (error _).
Qed.

(** Whatever the observers do, an iteration on a schema that reports an
    error throws. *)
Lemma validate_one_error config schema e s :
  reported_error config schema = Some e →
  ∃ x, outcome (validate_one config schema s) = inl x.
Proof.
  intros He. unfold validate_one. fold (reported_error config schema).
  rewrite He, perform_bind, trigger_bind. cbn [outcome].
  case_trigger; eauto.
Qed.

Lemma loop_inert config schemas :
  inert (Array_forEach schemas (validate_one config)).
Proof. apply Array_forEach_inert. intros x. apply validate_one_inert. Qed.

(** The loop on schemas that all pass: every schema is validated and
    announced, in order, and the loop returns. *)
Lemma loop_all_pass config schemas s :
  passive s →
  Forall (fun schema => reported_error config schema = None) schemas →
  Array_forEach schemas (validate_one config) s =
  MkRun (inr tt) s (flat_map (schema_events config) schemas).
Proof.
  intros Hp Hall. induction Hall as [|schema rest Hok _ IH]; [reflexivity|].
  cbn [Array_forEach flat_map]. rewrite bind_run.
  rewrite validate_one_passive, Hok by done.
  rewrite validate_one_inert, validate_one_trace, IH. reflexivity.
Qed.

(** The loop on schemas of which [schema] is the first to report an
    error: the schemas up to [schema] are validated and announced, the
    loop throws, and the schemas after it are not reached. *)
Lemma loop_first_failure config passed schema e rest s :
  passive s →
  Forall (fun schema => reported_error config schema = None) passed →
  reported_error config schema = Some e →
  Array_forEach (passed ++ schema :: rest) (validate_one config) s =
  MkRun (inl (Error (validation_error_message e))) s
        (flat_map (schema_events config) (passed ++ [schema])).
Proof.
  intros Hp Hall He.
  induction Hall as [|x passed Hok _ IH]; cbn [app Array_forEach flat_map].
  - rewrite bind_run, validate_one_passive, He by done.
    by rewrite validate_one_inert, validate_one_trace, app_nil_r.
  - rewrite bind_run, validate_one_passive, Hok by done.
    rewrite validate_one_inert, validate_one_trace, IH. reflexivity.
Qed.

(** A loop that meets a failing schema throws, whatever the observers
    do. *)
Lemma loop_throws config schemas s :
  Exists (fun schema => reported_error config schema ≠ None) schemas →
  ∃ x, outcome (Array_forEach schemas (validate_one config) s) = inl x.
Proof.
  intros Hex. induction schemas as [|schema rest IH]; [by inversion Hex|].
  cbn [Array_forEach]. rewrite bind_run.
  destruct (outcome (validate_one config schema s)) as [x|[]] eqn:E;
    cbn [outcome]; [eauto|].
  rewrite validate_one_inert. apply IH.
  inversion Hex as [? ? Hbad|]; subst; [|done].
  destruct (reported_error config schema) as [e|] eqn:He; [|done].
  destruct (validate_one_error config schema e s He) as [x Hx]. congruence.
Qed.

(** The loop fires no event but [validate_schema], and one per schema it
    validates. *)
Lemma loop_trace_prefix config schemas s :
  ∃ n, trace (Array_forEach schemas (validate_one config) s) =
       flat_map (schema_events config) (take n schemas).
Proof.
  induction schemas as [|schema rest IH] in s |- *; [by exists 0|].
  cbn [Array_forEach]. rewrite bind_run, validate_one_inert, validate_one_trace.
  destruct (outcome (validate_one config schema s)) as [x|[]]; cbn [trace].
  - exists 1. cbn [take flat_map]. by rewrite take_0.
  - destruct (IH s) as [n Hn]. exists (S n). cbn [take flat_map]. by rewrite Hn.
Qed.

(** A loop that meets a schema reporting an error at index [i] throws
    after validating at most the schemas up to it, whatever the observers
    do. *)
Lemma loop_stops config schemas i schema e s :
  schemas !! i = Some schema →
  reported_error config schema = Some e →
  ∃ n : nat, (n ≤ S i)%nat
       ∧ (∃ x, outcome (Array_forEach schemas (validate_one config) s) = inl x)
       ∧ trace (Array_forEach schemas (validate_one config) s)
         = flat_map (schema_events config) (take n schemas).
Proof.
  intros Hi He.
  induction schemas as [|first rest IH] in i, Hi |- *; [done|].
  cbn [Array_forEach]. rewrite bind_run, validate_one_inert, validate_one_trace.
  destruct (outcome (validate_one config first s)) as [x|[]] eqn:E;
    cbn [outcome trace].
  - exists 1. split_and!; [lia | eauto |]. cbn [take flat_map]. by rewrite take_0.
  - destruct i as [|i].
    + injection Hi as ->.
      destruct (validate_one_error config schema e s He) as [x Hx]. congruence.
    + destruct (IH i Hi) as (n & Hn & Hthrows & Htrace).
      exists (S n). split_and!; [lia | done |]. cbn [take flat_map]. by rewrite Htrace.
Qed.

End Loop.

(** ** What a computation emits *)

Lemma emits_bind {A B} P (m : M A) (k : A -> M B) :
  emits P m → (∀ a, emits P (k a)) → emits P (bind m k).
Proof.
  intros Hm Hk s. rewrite bind_run.
  destruct (outcome (m s)) as [e|a]; cbn [trace]; [apply Hm|].
  apply Forall_app. split; [apply Hm | apply Hk].
Qed.

Lemma emits_ret {A} P (a : A) : emits P (ret a).
Proof. intros s. constructor. Qed.

Lemma emits_throw {A} P e : emits P (@throw A e).
Proof. intros s. constructor. Qed.

Lemma emits_gets {A} P (f : State -> A) : emits P (gets f).
Proof. intros s. constructor. Qed.

Lemma emits_perform (P : Effect -> Prop) e : P e → emits P (perform e).
Proof. intros He s. by repeat constructor. Qed.

Lemma emits_trigger (P : Effect -> Prop) hook payload :
  P (Triggered hook payload) → emits P (trigger hook payload).
Proof. intros He s. rewrite trigger_trace. by repeat constructor. Qed.

Lemma emits_Array_map {A B} P (l : list A) (f : A -> M B) :
  (∀ x, emits P (f x)) → emits P (Array_map l f).
Proof.
  intros Hf. induction l as [|x l IH]; cbn [Array_map]; [apply emits_ret|].
  apply emits_bind; [apply Hf|]. intros y.
  apply emits_bind; [apply IH|]. intros ys. apply emits_ret.
Qed.

Lemma emits_Array_filter {A} P (l : list A) (p : A -> M bool) :
  (∀ x, emits P (p x)) → emits P (Array_filter l p).
Proof.
  intros Hp. induction l as [|x l IH]; cbn [Array_filter]; [apply emits_ret|].
  apply emits_bind; [apply Hp|]. intros b.
  apply emits_bind; [apply IH|]. intros xs. apply emits_ret.
Qed.

Lemma emits_Array_some {A} P (l : list A) (p : A -> M bool) :
  (∀ x, emits P (p x)) → emits P (Array_some l p).
Proof.
  intros Hp. induction l as [|x l IH]; cbn [Array_some]; [apply emits_ret|].
  apply emits_bind; [apply Hp|]. intros [|]; [apply emits_ret | apply IH].
Qed.

(** ** What a computation leaves unchanged *)

Section Steady.

Variable load : string -> Exn + ConfigModule.

Lemma unchanged_refl s : unchanged load s s.
Proof. by repeat split. Qed.

Lemma unchanged_trans s1 s2 s3 :
  unchanged load s1 s2 → unchanged load s2 s3 → unchanged load s1 s3.
Proof.
  intros [(F1 & P1 & H1) M1] [(F2 & P2 & H2) M2].
  split; [split_and!; congruence | intros id; by rewrite M2, M1].
Qed.

Lemma unchanged_sym s1 s2 : unchanged load s1 s2 → unchanged load s2 s1.
Proof.
  intros [(F & P & H) Hm].
  split; [split_and!; congruence | intros id; by rewrite Hm].
Qed.

Lemma inert_steady {A} (m : M A) : inert m → steady load m.
Proof. intros Hm s. rewrite Hm. apply unchanged_refl. Qed.

Lemma steady_bind {A B} (m : M A) (k : A -> M B) :
  steady load m → (∀ a, steady load (k a)) → steady load (bind m k).
Proof.
  intros Hm Hk s. rewrite bind_run.
  destruct (outcome (m s)) as [e|a]; cbn [final]; [apply Hm|].
  eapply unchanged_trans; [apply Hm | apply Hk].
Qed.

Lemma steady_Array_map {A B} (l : list A) (f : A -> M B) :
  (∀ x, steady load (f x)) → steady load (Array_map l f).
Proof.
  intros Hf. induction l as [|x l IH]; cbn [Array_map].
  - apply inert_steady, ret_inert.
  - apply steady_bind; [apply Hf|]. intros y.
    apply steady_bind; [apply IH|]. intros ys. apply inert_steady, ret_inert.
Qed.

Lemma steady_Array_filter {A} (l : list A) (p : A -> M bool) :
  (∀ x, steady load (p x)) → steady load (Array_filter l p).
Proof.
  intros Hp. induction l as [|x l IH]; cbn [Array_filter].
  - apply inert_steady, ret_inert.
  - apply steady_bind; [apply Hp|]. intros b.
    apply steady_bind; [apply IH|]. intros xs. apply inert_steady, ret_inert.
Qed.

Lemma steady_Array_some {A} (l : list A) (p : A -> M bool) :
  (∀ x, steady load (p x)) → steady load (Array_some l p).
Proof.
  intros Hp. induction l as [|x l IH]; cbn [Array_some].
  - apply inert_steady, ret_inert.
  - apply steady_bind; [apply Hp|].
    intros [|]; [apply inert_steady, ret_inert | apply IH].
Qed.

Lemma steady_RegExp_test filter str : steady load (RegExp_test filter str).
Proof.
  intros s. unfold RegExp_test. cbn [final].
  destruct (global filter || sticky filter); [|apply unchanged_refl].
  by repeat split.
Qed.

Lemma steady_passesConfigFileFilters file :
  steady load (passesConfigFileFilters file).
Proof.
  unfold passesConfigFileFilters.
  apply steady_bind; [apply inert_steady, gets_inert|]. intros filters.
  apply steady_Array_some. intros filter. apply steady_RegExp_test.
Qed.

Lemma steady_require id : steady load (require load id).
Proof.
  intros s. unfold require. rewrite perform_bind, gets_bind. cbn [final].
  destruct (require_cache s !! id) as [m|] eqn:Hc; [apply unchanged_refl|].
  destruct (load id) as [e|m] eqn:Hl; [apply unchanged_refl|].
  cbn [final]. split; [by repeat split|].
  intros id'. unfold module_at, set_require_cache. cbn [require_cache].
  destruct (decide (id = id')) as [<-|Hne].
  - by rewrite lookup_insert_eq, Hc, Hl.
  - by rewrite lookup_insert_ne.
Qed.

End Steady.

(** ** Reading traces *)

Lemma hook_payloads_app hook t1 t2 :
  hook_payloads hook (t1 ++ t2) = hook_payloads hook t1 ++ hook_payloads hook t2.
Proof. apply omap_app. Qed.

Lemma validated_schemas_app t1 t2 :
  validated_schemas (t1 ++ t2) = validated_schemas t1 ++ validated_schemas t2.
Proof. apply omap_app. Qed.

Lemma hook_payloads_Listed hook cwd t :
  hook_payloads hook (Listed cwd :: t) = hook_payloads hook t.
Proof. reflexivity. Qed.

Lemma hook_payloads_Triggered hook h payload t :
  hook_payloads hook (Triggered h payload :: t)
  = (if decide (h = hook) then [payload] else []) ++ hook_payloads hook t.
Proof. unfold hook_payloads. cbn [omap list_omap]. by destruct (decide (h = hook)). Qed.

Lemma validated_schemas_Triggered h payload t :
  validated_schemas (Triggered h payload :: t) = validated_schemas t.
Proof. reflexivity. Qed.

Lemma hook_payloads_discovery hook t :
  Forall discovery_effect t →
  hook ≠ configuration_resolved_files → hook ≠ configuration_loaded_schemas →
  hook_payloads hook t = [].
Proof.
  intros Ht H1 H2. induction Ht as [|e t He _ IH]; [reflexivity|].
  unfold hook_payloads. cbn [omap list_omap]. fold (hook_payloads hook t).
  rewrite IH. destruct e as [h p| | | |]; try reflexivity.
  destruct (decide (h = hook)) as [->|]; [|reflexivity].
  by destruct He.
Qed.

Lemma validated_schemas_discovery t :
  Forall discovery_effect t → validated_schemas t = [].
Proof.
  intros Ht. induction Ht as [|e t He _ IH]; [reflexivity|].
  unfold validated_schemas. cbn [omap list_omap]. fold (validated_schemas t).
  rewrite IH. by destruct e.
Qed.

Lemma hook_payloads_loop config schemas :
  hook_payloads validate_schema (flat_map (schema_events config) schemas) =
  map (fun schema => PayloadSchema schema config (reported_error config schema))
      schemas.
Proof.
  induction schemas as [|schema rest IH]; [reflexivity|].
  cbn [flat_map map]. rewrite hook_payloads_app, IH. reflexivity.
Qed.

Lemma hook_payloads_loop_other hook config schemas :
  hook ≠ validate_schema →
  hook_payloads hook (flat_map (schema_events config) schemas) = [].
Proof.
  intros Hne. induction schemas as [|schema rest IH]; [reflexivity|].
  cbn [flat_map]. rewrite hook_payloads_app, IH.
  unfold hook_payloads, schema_events. cbn [omap list_omap].
  by destruct (decide (validate_schema = hook)).
Qed.

Lemma validated_schemas_loop config schemas :
  validated_schemas (flat_map (schema_events config) schemas) = schemas.
Proof.
  induction schemas as [|schema rest IH]; [reflexivity|].
  cbn [flat_map]. rewrite validated_schemas_app, IH. reflexivity.
Qed.

(** ** The resolver and the orchestrator, in general *)

Section Orchestrator.

Variable path_resolve : list string -> string.
Variable readdirSync : string -> Exn + list string.
Variable load : string -> Exn + ConfigModule.

Local Abbreviation resolve_path := (resolve_path path_resolve readdirSync load).
Local Abbreviation resolveConfigValidationSchema :=
  (resolveConfigValidationSchema path_resolve readdirSync load).
Local Abbreviation validateEnv := (validateEnv path_resolve readdirSync load).

Lemma readdir_inert cwd : inert (readdir readdirSync cwd).
Proof.
  unfold readdir. apply bind_inert; [apply perform_inert|]. intros _.
  destruct (readdirSync cwd); [apply throw_inert | apply ret_inert].
Qed.

Lemma steady_resolve_path path : steady load (resolve_path path).
Proof.
  unfold resolve_path.
  apply steady_bind; [apply inert_steady, readdir_inert|]. intros entries.
  apply steady_bind.
  { apply steady_Array_filter. intros x. apply steady_passesConfigFileFilters. }
  intros config_files.
  apply steady_bind; [apply inert_steady, trigger_inert|]. intros _.
  apply steady_bind.
  { apply steady_Array_map. intros file. apply steady_require. }
  intros modules. unfold tap.
  apply steady_bind; [apply inert_steady, trigger_inert|]. intros _.
  apply inert_steady, ret_inert.
Qed.

Lemma steady_resolveConfigValidationSchema :
  steady load resolveConfigValidationSchema.
Proof.
  unfold resolveConfigValidationSchema.
  apply steady_bind; [apply inert_steady, gets_inert|]. intros paths.
  apply steady_bind.
  { apply steady_Array_map. intros path. apply steady_resolve_path. }
  intros per_path. apply inert_steady, ret_inert.
Qed.

Lemma steady_validateEnv config : steady load (validateEnv config).
Proof.
  unfold validateEnv.
  apply steady_bind; [apply inert_steady, trigger_inert|]. intros _.
  apply steady_bind; [apply steady_resolveConfigValidationSchema|]. intros schemas.
  apply steady_bind; [apply inert_steady, loop_inert|]. intros _.
  apply steady_bind; [apply inert_steady, trigger_inert|]. intros _.
  apply inert_steady, ret_inert.
Qed.

Lemma discovery_passesConfigFileFilters file :
  emits discovery_effect (passesConfigFileFilters file).
Proof.
  unfold passesConfigFileFilters. apply emits_bind; [apply emits_gets|].
  intros filters. apply emits_Array_some. intros filter s.
  by repeat constructor.
Qed.

Lemma discovery_resolve_path path : emits discovery_effect (resolve_path path).
Proof.
  unfold resolve_path, readdir, require, tap.
  apply emits_bind.
  { apply emits_bind; [by apply emits_perform|]. intros _.
    destruct (readdirSync _); [apply emits_throw | apply emits_ret]. }
  intros entries. apply emits_bind.
  { apply emits_Array_filter. intros x. apply discovery_passesConfigFileFilters. }
  intros config_files.
  apply emits_bind; [apply emits_trigger; by left|]. intros _.
  apply emits_bind.
  { apply emits_Array_map. intros file.
    apply emits_bind; [by apply emits_perform|]. intros _.
    apply emits_bind; [apply emits_gets|]. intros cache.
    destruct (cache !! _); [apply emits_ret|].
    destruct (load _); [apply emits_throw|]. intros s. constructor. }
  intros modules.
  apply emits_bind; [apply emits_trigger; by right|]. intros _.
  apply emits_ret.
Qed.

Lemma discovery_resolveConfigValidationSchema :
  emits discovery_effect resolveConfigValidationSchema.
Proof.
  unfold resolveConfigValidationSchema.
  apply emits_bind; [apply emits_gets|]. intros paths.
  apply emits_bind; [|intros per_path; apply emits_ret].
  apply emits_Array_map. intros path. apply discovery_resolve_path.
Qed.

(** Observers stay passive through discovery. *)
Lemma passive_after_resolve s :
  passive s → passive (final (resolveConfigValidationSchema s)).
Proof.
  intros Hp hook cb payload.
  destruct (steady_resolveConfigValidationSchema s) as [(_ & _ & ->) _].
  apply Hp.
Qed.

(** How [validateEnv] unfolds once discovery has returned [schemas]. *)
Lemma validateEnv_after_resolve config s schemas :
  outcome (trigger validate_before (PayloadConfig config) s) = inr tt →
  outcome (resolveConfigValidationSchema s) = inr schemas →
  let r := resolveConfigValidationSchema s in
  let loop := Array_forEach schemas (validate_one config) (final r) in
  validateEnv config s =
  match outcome loop with
  | inl e =>
      MkRun (inl e) (final r)
            (Triggered validate_before (PayloadConfig config)
               :: trace r ++ trace loop)
  | inr _ =>
      MkRun (match outcome (trigger validate_after (PayloadConfig config) (final r)) with
             | inl e => inl e
             | inr _ => inr config
             end)
            (final r)
            (Triggered validate_before (PayloadConfig config)
               :: trace r ++ trace loop
               ++ [Triggered validate_after (PayloadConfig config)])
  end.
Proof.
  intros Hb Hr. cbv zeta. unfold validateEnv.
  rewrite trigger_bind, Hb, bind_run, Hr. cbn [outcome final trace].
  rewrite bind_run, loop_inert.
  destruct (outcome (Array_forEach _ _ _)) as [e|[]]; cbn [outcome final trace].
  - reflexivity.
  - rewrite trigger_bind. by case_trigger.
Qed.

End Orchestrator.

Lemma bind_inr_inv {A B} (m : M A) (k : A -> M B) s b :
  outcome (bind m k s) = inr b →
  ∃ a, outcome (m s) = inr a ∧ outcome (k a (final (m s))) = inr b.
Proof.
  rewrite bind_run. destruct (outcome (m s)) as [e|a]; cbn [outcome]; [done|].
  intros Hk. by exists a.
Qed.

(** ** The validation pass *)

Section Validation.

Variable path_resolve : list string -> string.
Variable readdirSync : string -> Exn + list string.
Variable load : string -> Exn + ConfigModule.

Local Abbreviation resolveConfigValidationSchema :=
  (resolveConfigValidationSchema path_resolve readdirSync load).
Local Abbreviation validateEnv := (validateEnv path_resolve readdirSync load).

(** The run of [validateEnv] when every resolved schema passes. *)
Lemma validateEnv_success config s schemas :
  passive s →
  outcome (resolveConfigValidationSchema s) = inr schemas →
  Forall (fun schema => reported_error config schema = None) schemas →
  validateEnv config s =
  MkRun (inr config) (final (resolveConfigValidationSchema s))
        (Triggered validate_before (PayloadConfig config)
           :: trace (resolveConfigValidationSchema s)
           ++ flat_map (schema_events config) schemas
           ++ [Triggered validate_after (PayloadConfig config)]).
Proof.
  intros Hp Hr Hall.
  rewrite (validateEnv_after_resolve _ _ _ config s schemas)
    by (by rewrite ?trigger_passive).
  rewrite loop_all_pass by (by try apply passive_after_resolve).
  cbn [outcome trace]. rewrite trigger_passive by by apply passive_after_resolve.
  reflexivity.
Qed.

(** The run of [validateEnv] when [schema] is the first resolved schema
    to report an error. *)
Lemma validateEnv_failure config s passed schema e rest :
  passive s →
  outcome (resolveConfigValidationSchema s) = inr (passed ++ schema :: rest) →
  Forall (fun schema => reported_error config schema = None) passed →
  reported_error config schema = Some e →
  validateEnv config s =
  MkRun (inl (Error (validation_error_message e)))
        (final (resolveConfigValidationSchema s))
        (Triggered validate_before (PayloadConfig config)
           :: trace (resolveConfigValidationSchema s)
           ++ flat_map (schema_events config) (passed ++ [schema])).
Proof.
  intros Hp Hr Hall He.
  rewrite (validateEnv_after_resolve _ _ _ config s (passed ++ schema :: rest))
    by (by rewrite ?trigger_passive).
  rewrite (loop_first_failure config passed schema e)
    by (by try apply passive_after_resolve).
  reflexivity.
Qed.

(** Splitting a list at its first failing schema. *)
Lemma first_failure_split config (schemas : list ObjectSchema) i schema :
  schemas !! i = Some schema →
  (∀ j x, j < i → schemas !! j = Some x → reported_error config x = None) →
  schemas = take i schemas ++ schema :: drop (S i) schemas
  ∧ Forall (fun x => reported_error config x = None) (take i schemas).
Proof.
  intros Hi Hbefore. split.
  - by rewrite <- (take_drop_middle schemas i schema) at 1.
  - apply Forall_forall. intros x Hx.
    apply list_elem_of_lookup in Hx as [j Hj].
    apply lookup_take_Some in Hj as [Hj Hlt]. by apply (Hbefore j).
Qed.

(** Whatever the observers do, a pass that meets a failing schema fires
    no [validate_after]. *)
Lemma validate_after_silent config s schemas :
  outcome (resolveConfigValidationSchema s) = inr schemas →
  Exists (fun schema => reported_error config schema ≠ None) schemas →
  hook_payloads validate_after (trace (validateEnv config s)) = [].
Proof.
  intros Hr Hex.
  destruct (outcome (trigger validate_before (PayloadConfig config) s))
    as [x|[]] eqn:Hb.
  { unfold validateEnv. by rewrite trigger_bind, Hb. }
  rewrite (validateEnv_after_resolve _ _ _ config s schemas) by done.
  destruct (loop_throws config schemas (final (resolveConfigValidationSchema s)) Hex)
    as [x ->].
  destruct (loop_trace_prefix config schemas (final (resolveConfigValidationSchema s)))
    as [n ->].
  cbn [trace]. change (?e :: ?t) with ([e] ++ t).
  rewrite !hook_payloads_app, hook_payloads_loop_other by done.
  rewrite (hook_payloads_discovery validate_after
             (trace (resolveConfigValidationSchema s))) by
    (done || apply discovery_resolveConfigValidationSchema).
  reflexivity.
Qed.

(** Whatever the observers do, a pass whose resolved list holds a schema
    reporting an error at index [i] throws, having validated and announced
    the first [n] schemas only, for some [n] not above [i + 1]. *)
Lemma failing_pass_throws config s schemas i schema e :
  outcome (resolveConfigValidationSchema s) = inr schemas →
  schemas !! i = Some schema →
  reported_error config schema = Some e →
  ∃ n : nat, (n ≤ S i)%nat
       ∧ (∃ x, outcome (validateEnv config s) = inl x)
       ∧ validated_schemas (trace (validateEnv config s)) = take n schemas
       ∧ hook_payloads validate_schema (trace (validateEnv config s))
         = map (fun x => PayloadSchema x config (reported_error config x))
               (take n schemas).
Proof.
  intros Hr Hi He.
  destruct (outcome (trigger validate_before (PayloadConfig config) s))
    as [x|[]] eqn:Hb.
  { exists 0. unfold validateEnv. rewrite trigger_bind, Hb, take_0.
    split_and!; [lia | by eexists | done | done]. }
  rewrite (validateEnv_after_resolve _ _ _ config s schemas) by done.
  destruct (loop_stops config schemas i schema e
              (final (resolveConfigValidationSchema s)) Hi He)
    as (n & Hn & [x ->] & ->).
  exists n. cbn [outcome trace].
  rewrite hook_payloads_Triggered, hook_payloads_app, hook_payloads_loop.
  rewrite (hook_payloads_discovery validate_schema
             (trace (resolveConfigValidationSchema s)))
    by (done || apply discovery_resolveConfigValidationSchema).
  rewrite validated_schemas_Triggered, validated_schemas_app, validated_schemas_loop.
  rewrite (validated_schemas_discovery (trace (resolveConfigValidationSchema s)))
    by apply discovery_resolveConfigValidationSchema.
  split_and!; [done | by eexists | done | done].
Qed.

(** C1: when schema [k] (1-indexed; index [i = k - 1] here) of the
    resolved list is the first whose [validate] reports an error,
    [validateEnv] throws and invokes [validate] on none of the schemas
    after the [k]-th, whatever the observers do; and, observers not
    throwing, it fires exactly [k] [validate_schema] events, one per schema
    up to the [k]-th and the [k]-th carrying that error, and invokes
    [validate] on exactly the first [k] schemas. *)
Theorem validateEnv_stops_at_first_failure config s schemas i schema e :
  outcome (resolveConfigValidationSchema s) = inr schemas →
  schemas !! i = Some schema →
  reported_error config schema = Some e →
  (∀ j x, j < i → schemas !! j = Some x → reported_error config x = None) →
  let r := validateEnv config s in
  let fired := hook_payloads validate_schema (trace r) in
  (∃ x, outcome r = inl x)
  ∧ (∃ n : nat, (n ≤ S i)%nat ∧ validated_schemas (trace r) = take n schemas ∧ length fired = n)
  ∧ (passive s →
     length fired = S i
     ∧ fired = map (fun x => PayloadSchema x config (reported_error config x))
                   (take (S i) schemas)
     ∧ fired !! i = Some (PayloadSchema schema config (Some e))
     ∧ validated_schemas (trace r) = take (S i) schemas).
Proof.
  intros Hr Hi He Hbefore r fired.
  assert (Hlen : i < length schemas) by by eapply lookup_lt_Some.
  destruct (failing_pass_throws config s schemas i schema e Hr Hi He)
    as (n & Hn & Hthrows & Hvalidated & Hfired).
  split; [exact Hthrows|]. split.
  { exists n. split_and!; [done | done |].
    subst fired r. rewrite Hfired, length_map, length_take. lia. }
  intros Hp.
  destruct (first_failure_split config schemas i schema Hi Hbefore) as [Hsplit Hall].
  assert (Htake : take (S i) schemas = take i schemas ++ [schema])
    by by apply take_S_r.
  assert (Hrun := validateEnv_failure config s (take i schemas) schema e
                    (drop (S i) schemas) Hp).
  rewrite <- Hsplit in Hrun. specialize (Hrun Hr Hall He).
  assert (Hexact : fired =
            map (fun x => PayloadSchema x config (reported_error config x))
                (take (S i) schemas)).
  { subst fired r. rewrite Hrun. cbn [trace].
    rewrite hook_payloads_Triggered, hook_payloads_app, hook_payloads_loop, Htake.
    rewrite (hook_payloads_discovery validate_schema
               (trace (resolveConfigValidationSchema s)))
      by (done || apply discovery_resolveConfigValidationSchema).
    reflexivity. }
  split_and!.
  - rewrite Hexact, length_map, length_take. lia.
  - exact Hexact.
  - rewrite Hexact, list_lookup_fmap, lookup_take_lt, Hi by lia.
    cbn. by rewrite He.
  - subst r. rewrite Hrun. cbn [trace].
    rewrite validated_schemas_Triggered, validated_schemas_app,
      validated_schemas_loop, Htake.
    rewrite (validated_schemas_discovery (trace (resolveConfigValidationSchema s)))
      by apply discovery_resolveConfigValidationSchema.
    reflexivity.
Qed.

(** C2, as amended: when a schema reports an error (it is the first of
    the resolved list to do so, and no observer throws), [validateEnv]
    throws an [Error] whose message is [Config validation error: ]
    followed by the schema's error message; the thrown value is built
    from that message alone. *)
Theorem validateEnv_wraps_the_message config s schemas i schema e :
  passive s →
  outcome (resolveConfigValidationSchema s) = inr schemas →
  schemas !! i = Some schema →
  reported_error config schema = Some e →
  (∀ j x, j < i → schemas !! j = Some x → reported_error config x = None) →
  outcome (validateEnv config s)
  = inl (Error ("Config validation error: " +:+ message e)).
Proof.
  intros Hp Hr Hi He Hbefore.
  destruct (first_failure_split config schemas i schema Hi Hbefore) as [Hsplit Hall].
  assert (Hrun := validateEnv_failure config s (take i schemas) schema e
                    (drop (S i) schemas) Hp).
  rewrite <- Hsplit in Hrun. by rewrite (Hrun Hr Hall He).
Qed.

(** C3: for a resolved schema list, [validate_after] never fires when a
    schema fails, whatever the observers do; and, observers not
    throwing, it fires if and only if every schema passes, once and with
    the environment bag. *)
Theorem validate_after_iff_all_pass config s schemas :
  outcome (resolveConfigValidationSchema s) = inr schemas →
  let fired := hook_payloads validate_after (trace (validateEnv config s)) in
  (Exists (fun schema => reported_error config schema ≠ None) schemas →
   fired = [])
  ∧ (passive s →
     (fired ≠ [] ↔ Forall (fun schema => reported_error config schema = None) schemas)
     ∧ (fired ≠ [] → fired = [PayloadConfig config])).
Proof.
  intros Hr fired.
  assert (Hpass : passive s →
            Forall (fun schema => reported_error config schema = None) schemas →
            fired = [PayloadConfig config]).
  { intros Hp Hall. subst fired.
    rewrite (validateEnv_success config s schemas) by done. cbn [trace].
    change (?x :: ?t) with ([x] ++ t).
    rewrite !hook_payloads_app, hook_payloads_loop_other by done.
    rewrite (hook_payloads_discovery validate_after
               (trace (resolveConfigValidationSchema s)))
      by (done || apply discovery_resolveConfigValidationSchema).
    reflexivity. }
  assert (Hfail : Exists (fun schema => reported_error config schema ≠ None) schemas →
                  fired = [])
    by by apply validate_after_silent.
  assert (Hdec : Forall (fun schema => reported_error config schema = None) schemas
                 ∨ Exists (fun schema => reported_error config schema ≠ None) schemas).
  { destruct (decide (Forall (fun schema => reported_error config schema = None) schemas))
      as [?|Hn]; [by left|right].
    by apply not_Forall_Exists in Hn; [|apply _]. }
  split; [exact Hfail|]. intros Hp. split; [split|].
  - intros Hne. destruct Hdec as [?|Hex]; [done|]. by rewrite Hfail in Hne.
  - intros Hall. by rewrite Hpass.
  - intros Hne. destruct Hdec as [?|Hex]; [by apply Hpass|]. by rewrite Hfail in Hne.
Qed.

(** C4: [validateEnv] never returns anything but the environment bag it
    was given; and when every resolved schema passes (observers not
    throwing) it does return, with that very bag, every key as it was. *)
Theorem validateEnv_returns_the_bag config s :
  (∀ returned, outcome (validateEnv config s) = inr returned → returned = config)
  ∧ (∀ schemas,
       passive s →
       outcome (resolveConfigValidationSchema s) = inr schemas →
       Forall (fun schema => reported_error config schema = None) schemas →
       outcome (validateEnv config s) = inr config
       ∧ ∀ returned key,
           outcome (validateEnv config s) = inr returned →
           returned !! key = config !! key).
Proof.
  assert (Hret : ∀ returned,
            outcome (validateEnv config s) = inr returned → returned = config).
  { intros returned. unfold validateEnv. intros H.
    apply bind_inr_inv in H as ([] & _ & H).
    apply bind_inr_inv in H as (schemas & _ & H).
    apply bind_inr_inv in H as ([] & _ & H).
    apply bind_inr_inv in H as ([] & _ & H).
    cbn in H. congruence. }
  split; [exact Hret|]. intros schemas Hp Hr Hall. split.
  - by rewrite (validateEnv_success config s schemas).
  - intros returned key H. by rewrite (Hret returned H).
Qed.

End Validation.

(** ** The scenarios of the spec, on the concrete host *)

Lemma project_passive : passive Fixture.project.
Proof.
  intros hook cb payload Hin.
  destruct hook; cbn in Hin; try (by inversion Hin).
  apply list_elem_of_singleton in Hin. by subst.
Qed.

Lemma project_schemas :
  outcome (Fixture.resolveConfigValidationSchema Fixture.project)
  = inr [Fixture.db_schema; Fixture.jwt_schema].
Proof. vm_compute. reflexivity. Qed.

Lemma good_env_passes :
  Forall (fun schema => reported_error Fixture.good_env schema = None)
         [Fixture.db_schema; Fixture.jwt_schema].
Proof. repeat constructor. Qed.

(** With [DB_PORT] fine and [JWT_SECRET] empty, the second of the two
    schemas is the first to fail: two [validate_schema] events, the second
    with the error, and a throw. *)
Lemma validateEnv_stops_at_first_failure_witness :
  let r := Fixture.validateEnv Fixture.empty_secret_env Fixture.project in
  let fired := hook_payloads validate_schema (trace r) in
  passive Fixture.project
  ∧ outcome (Fixture.resolveConfigValidationSchema Fixture.project)
    = inr [Fixture.db_schema; Fixture.jwt_schema]
  ∧ (∃ x, outcome r = inl x)
  ∧ length fired = 2
  ∧ fired !! 1 = Some (PayloadSchema Fixture.jwt_schema Fixture.empty_secret_env
                         (Some {| message := "JWT_SECRET is not allowed to be empty" |}))
  ∧ validated_schemas (trace r) = take 2 [Fixture.db_schema; Fixture.jwt_schema].
Proof.
  split; [exact project_passive|]. split; [exact project_schemas|].
  destruct (validateEnv_stops_at_first_failure
              Fixture.resolve Fixture.readdirSync Fixture.load
              Fixture.empty_secret_env Fixture.project
              [Fixture.db_schema; Fixture.jwt_schema] 1 Fixture.jwt_schema
              {| message := "JWT_SECRET is not allowed to be empty" |})
    as (Hthrows & _ & Hexact).
  - exact project_schemas.
  - reflexivity.
  - vm_compute. reflexivity.
  - intros j x Hj Hx. destruct j as [|j]; [|lia].
    injection Hx as <-. vm_compute. reflexivity.
  - destruct (Hexact project_passive) as (Hlen & _ & Hlast & Hvalidated).
    by split_and!.
Defined.

(** The scenario with [DB_PORT: 80]: the error thrown wraps the message of
    the [DB_PORT] schema. *)
Lemma validateEnv_wraps_the_message_witness :
  outcome (Fixture.validateEnv Fixture.bad_port_env Fixture.project)
  = inl (Error ("Config validation error: "
                +:+ "DB_PORT must be greater than or equal to 1024")).
Proof.
  apply (validateEnv_wraps_the_message
           Fixture.resolve Fixture.readdirSync Fixture.load
           Fixture.bad_port_env Fixture.project
           [Fixture.db_schema; Fixture.jwt_schema] 0 Fixture.db_schema
           {| message := "DB_PORT must be greater than or equal to 1024" |}).
  - exact project_passive.
  - exact project_schemas.
  - reflexivity.
  - vm_compute. reflexivity.
  - intros j x Hj. lia.
Defined.

(** C2, as stated, fails: the two runs below fail on different schemas
    (of different modules, both constraining [DB_PORT]) and throw the very
    same value, so the thrown error does not tell which schema failed. *)
Lemma thrown_error_does_not_tell_the_schema :
  let solo := Fixture.object [default_config_file_filter] ["/app/solo"] in
  let replica := Fixture.object [default_config_file_filter] ["/app/replica"] in
  let run_solo := Fixture.validateEnv Fixture.bad_port_env solo in
  let run_replica := Fixture.validateEnv Fixture.bad_port_env replica in
  validated_schemas (trace run_solo) = [Fixture.db_schema]
  ∧ validated_schemas (trace run_replica) = [Fixture.replica_schema]
  ∧ Fixture.db_schema ≠ Fixture.replica_schema
  ∧ outcome run_solo
    = inl (Error "Config validation error: DB_PORT must be greater than or equal to 1024")
  ∧ outcome run_replica = outcome run_solo
  ∧ ¬ ∃ which : Exn → ObjectSchema,
        (∀ x, outcome run_solo = inl x → which x = Fixture.db_schema)
        ∧ (∀ x, outcome run_replica = inl x → which x = Fixture.replica_schema).
Proof.
  assert (Hne : Fixture.db_schema ≠ Fixture.replica_schema).
  { intros Heq.
    apply (f_equal (fun schema => reported_error Fixture.good_env schema)) in Heq.
    vm_compute in Heq. discriminate. }
  cbv zeta. split_and!.
  - vm_compute. reflexivity.
  - vm_compute. reflexivity.
  - exact Hne.
  - vm_compute. reflexivity.
  - vm_compute. reflexivity.
  - intros (which & Hsolo & Hreplica). apply Hne.
    rewrite <- (Hsolo (Error "Config validation error: DB_PORT must be greater than or equal to 1024"))
      by (vm_compute; reflexivity).
    apply Hreplica. vm_compute. reflexivity.
Qed.

(** The scenario with [DB_PORT: 5432] and [JWT_SECRET: x]: both schemas
    pass and [validate_after] fires once, with the bag. *)
Lemma validate_after_iff_all_pass_witness :
  outcome (Fixture.resolveConfigValidationSchema Fixture.project)
  = inr [Fixture.db_schema; Fixture.jwt_schema]
  ∧ passive Fixture.project
  ∧ hook_payloads validate_after
      (trace (Fixture.validateEnv Fixture.good_env Fixture.project))
    = [PayloadConfig Fixture.good_env].
Proof.
  split; [exact project_schemas|]. split; [exact project_passive|].
  destruct (validate_after_iff_all_pass
              Fixture.resolve Fixture.readdirSync Fixture.load
              Fixture.good_env Fixture.project
              [Fixture.db_schema; Fixture.jwt_schema] project_schemas)
    as [_ Hiff].
  destruct (Hiff project_passive) as [Hfires Honce].
  apply Honce, Hfires, good_env_passes.
Defined.

(** The same scenario: [validateEnv] returns the object it was given. *)
Lemma validateEnv_returns_the_bag_witness :
  passive Fixture.project
  ∧ outcome (Fixture.resolveConfigValidationSchema Fixture.project)
    = inr [Fixture.db_schema; Fixture.jwt_schema]
  ∧ Forall (fun schema => reported_error Fixture.good_env schema = None)
           [Fixture.db_schema; Fixture.jwt_schema]
  ∧ outcome (Fixture.validateEnv Fixture.good_env Fixture.project)
    = inr Fixture.good_env.
Proof.
  split; [exact project_passive|]. split; [exact project_schemas|].
  split; [exact good_env_passes|].
  destruct (validateEnv_returns_the_bag
              Fixture.resolve Fixture.readdirSync Fixture.load
              Fixture.good_env Fixture.project) as [_ Hreturns].
  apply (Hreturns [Fixture.db_schema; Fixture.jwt_schema]).
  - exact project_passive.
  - exact project_schemas.
  - exact good_env_passes.
Defined.

(** ** The two ordered sets *)

(** Filtering keeps every sublist made of elements that pass. *)
Lemma sublist_filter_max {A} (P : A → Prop) `{!∀ x, Decision (P x)}
    (kept l : list A) :
  kept `sublist_of` l → Forall P kept → kept `sublist_of` base.filter P l.
Proof.
  induction 1 as [|x l1 l2 _ IH|x l1 l2 _ IH]; intros Hall.
  - constructor.
  - apply Forall_cons in Hall as [Hx Hall].
    rewrite filter_cons_True by done. constructor. by apply IH.
  - rewrite filter_cons. destruct (decide (P x)); [constructor|]; by apply IH.
Qed.

(** C10: [removeResolutionPath(path)] removes every occurrence of [path]
    and keeps all other paths in their relative order: what is left is a
    sublist of the former set, holds no [path], and contains every sublist
    of the former set that holds no [path]. The filters are not touched. *)
Theorem removeResolutionPath_removes_every_occurrence path s :
  let before := resolution_paths s in
  let after := resolution_paths (removeResolutionPath path s) in
  (path ∉ after)
  ∧ after `sublist_of` before
  ∧ (∀ kept, kept `sublist_of` before → path ∉ kept → kept `sublist_of` after)
  ∧ (∀ p, p ≠ path → p ∈ before → p ∈ after)
  ∧ config_file_filters (removeResolutionPath path s) = config_file_filters s.
Proof.
  cbn. split_and!.
  - intros Hin. by apply list_elem_of_filter in Hin as [Hne _].
  - apply sublist_filter.
  - intros kept Hsub Hnot. apply sublist_filter_max; [done|].
    apply Forall_forall. intros p Hp ->. done.
  - intros p Hne Hin. by apply list_elem_of_filter.
  - reflexivity.
Qed.

(** A set with a duplicated path: both occurrences go, the rest stays in
    order. *)
Example removeResolutionPath_duplicates :
  resolution_paths
    (removeResolutionPath "/app/config"
       (Fixture.object [] ["/app/config"; "/app/solo"; "/app/config"; "/app/replica"]))
  = ["/app/solo"; "/app/replica"].
Proof. vm_compute. reflexivity. Qed.

(** C7: removing with a pattern object whose source text equals that of a
    filter of the set removes that filter, whatever else distinguishes the
    two objects: no filter with that source text is left, and the filters
    with another source text all stay, in order. *)
Theorem removeConfigFileFilter_compares_source_text added other s :
  added ∈ config_file_filters s →
  source other = source added →
  let before := config_file_filters s in
  let after := config_file_filters (removeConfigFileFilter other s) in
  (added ∉ after)
  ∧ (∀ f, f ∈ after → source f ≠ source added)
  ∧ after `sublist_of` before
  ∧ (∀ kept, kept `sublist_of` before →
             Forall (fun f => source f ≠ source added) kept →
             kept `sublist_of` after)
  ∧ resolution_paths (removeConfigFileFilter other s) = resolution_paths s.
Proof.
  intros Hin Hsrc. cbn. rewrite Hsrc. split_and!.
  - intros Hafter. by apply list_elem_of_filter in Hafter as [Hne _].
  - intros f Hf. by apply list_elem_of_filter in Hf as [Hne _].
  - apply sublist_filter.
  - intros kept Hsub Hall. by apply sublist_filter_max.
  - reflexivity.
Qed.

(** The default filter, added by the constructor, is removed by passing a
    distinct object (another identity, another flag) with the same
    pattern text. *)
Lemma removeConfigFileFilter_compares_source_text_witness :
  let s := addConfigFileFilter Fixture.readme_filter
             (constructor Fixture.resolve "/app/src") in
  default_config_file_filter ∈ config_file_filters s
  ∧ source Fixture.global_filter = source default_config_file_filter
  ∧ regexp_id Fixture.global_filter ≠ regexp_id default_config_file_filter
  ∧ config_file_filters (removeConfigFileFilter Fixture.global_filter s)
    = [Fixture.readme_filter]
  ∧ default_config_file_filter
    ∉ config_file_filters (removeConfigFileFilter Fixture.global_filter s).
Proof.
  cbv zeta. split_and!.
  - apply list_elem_of_here.
  - reflexivity.
  - discriminate.
  - vm_compute. reflexivity.
  - apply (removeConfigFileFilter_compares_source_text
             default_config_file_filter Fixture.global_filter).
    + apply list_elem_of_here.
    + reflexivity.
Defined.

Section Frame.

Variable path_resolve : list string -> string.
Variable readdirSync : string -> Exn + list string.
Variable load : string -> Exn + ConfigModule.

Local Abbreviation validateEnv := (validateEnv path_resolve readdirSync load).
Local Abbreviation invoke := (invoke path_resolve readdirSync load).

(** C9: of the public operations, only the add/remove/clear mutators
    change the resolution path set or the config file filter set; a
    call to [validateEnv] leaves both as they were whether it returns or
    throws, and so do the two getters, which return the sets. *)
Theorem sets_change_only_through_mutators s :
  (∀ c, is_set_mutator c = false →
        config_file_filters (invoke c s) = config_file_filters s
        ∧ resolution_paths (invoke c s) = resolution_paths s)
  ∧ (∀ config,
       config_file_filters (final (validateEnv config s)) = config_file_filters s
       ∧ resolution_paths (final (validateEnv config s)) = resolution_paths s)
  ∧ (configFileFilters s = config_file_filters s
     ∧ resolutionPaths s = resolution_paths s
     ∧ invoke call_configFileFilters s = s
     ∧ invoke call_resolutionPaths s = s).
Proof.
  assert (Hv : ∀ config,
            config_file_filters (final (validateEnv config s)) = config_file_filters s
            ∧ resolution_paths (final (validateEnv config s)) = resolution_paths s).
  { intros config.
    by destruct (steady_validateEnv path_resolve readdirSync load config s)
      as [(? & ? & _) _]. }
  split_and!; try reflexivity; [|exact Hv].
  intros c Hc. destruct c; try discriminate Hc; unfold invoke;
    by (split; reflexivity) || apply Hv.
Qed.

End Frame.

(** ** Stateless filters *)

Lemma RegExp_test_stateless filter str s :
  stateless filter →
  RegExp_test filter str s =
  MkRun (inr (pattern_matches filter str)) s
        [Tested filter str (pattern_matches filter str)].
Proof.
  intros [Hg Hy]. unfold RegExp_test, RegExp_start, pattern_matches.
  rewrite Hg, Hy. cbn [orb]. by rewrite Nat.sub_0_r.
Qed.

Lemma Array_some_stateless filters file s :
  Forall stateless filters →
  Array_some filters (fun filter => RegExp_test filter file) s =
  MkRun (inr (matches_some_filter filters file)) s (test_events filters file).
Proof.
  induction 1 as [|filter rest Hf _ IH]; [reflexivity|].
  cbn [Array_some matches_some_filter existsb test_events].
  rewrite bind_run, RegExp_test_stateless by done. cbn [outcome final trace].
  destruct (pattern_matches filter file); cbn [orb]; [reflexivity|].
  by rewrite IH.
Qed.

Lemma passesConfigFileFilters_stateless file s :
  Forall stateless (config_file_filters s) →
  passesConfigFileFilters file s =
  MkRun (inr (matches_some_filter (config_file_filters s) file)) s
        (test_events (config_file_filters s) file).
Proof.
  intros Hst. unfold passesConfigFileFilters.
  by rewrite gets_bind, Array_some_stateless.
Qed.

Lemma Array_filter_stateless entries s :
  Forall stateless (config_file_filters s) →
  Array_filter entries (fun value => passesConfigFileFilters value) s =
  MkRun (inr (List.filter (matches_some_filter (config_file_filters s)) entries)) s
        (flat_map (test_events (config_file_filters s)) entries).
Proof.
  intros Hst. induction entries as [|file rest IH]; [reflexivity|].
  cbn [Array_filter List.filter flat_map].
  rewrite bind_run, passesConfigFileFilters_stateless by done.
  cbn [outcome final trace]. rewrite bind_run, IH.
  cbn [outcome final trace ret]. rewrite app_nil_r.
  by destruct (matches_some_filter _ file).
Qed.

(** ** Two runs in a row *)

Section Determinism.

Variable path_resolve : list string -> string.
Variable readdirSync : string -> Exn + list string.
Variable load : string -> Exn + ConfigModule.

Local Abbreviation resolve_path := (resolve_path path_resolve readdirSync load).
Local Abbreviation resolveConfigValidationSchema :=
  (resolveConfigValidationSchema path_resolve readdirSync load).
Local Abbreviation validateEnv := (validateEnv path_resolve readdirSync load).

Lemma agrees_bind {A B} (m : M A) (k : A -> M B) :
  agrees load m → steady load m → (∀ a, agrees load (k a)) →
  agrees load (bind m k).
Proof.
  intros Hm Hsteady Hk s s' Hss' Hst. rewrite !bind_run.
  destruct (Hm s s' Hss' Hst) as [-> ->].
  destruct (outcome (m s)) as [e|a]; cbn [outcome trace]; [done|].
  assert (Hrel : unchanged load (final (m s)) (final (m s'))).
  { eapply unchanged_trans; [apply unchanged_sym, Hsteady|].
    eapply unchanged_trans; [exact Hss' | apply Hsteady]. }
  assert (Hst' : Forall stateless (config_file_filters (final (m s)))).
  { by destruct (Hsteady s) as [(-> & _ & _) _]. }
  by destruct (Hk a _ _ Hrel Hst') as [-> ->].
Qed.

Lemma agrees_ret {A} (a : A) : agrees load (ret a).
Proof. by intros s s' _ _. Qed.

Lemma agrees_throw {A} e : agrees load (@throw A e).
Proof. by intros s s' _ _. Qed.

Lemma agrees_perform e : agrees load (perform e).
Proof. by intros s s' _ _. Qed.

Lemma agrees_gets {A} (f : State -> A) :
  (∀ s s', same_object s s' → f s' = f s) → agrees load (gets f).
Proof. intros Hf s s' [Hobj _] _. cbn. by rewrite (Hf s s'). Qed.

Lemma notify_outcome callbacks payload s s' :
  outcome (notify callbacks payload s') = outcome (notify callbacks payload s).
Proof.
  induction callbacks as [|cb rest IH]; cbn [notify]; [reflexivity|].
  by destruct (cb payload).
Qed.

Lemma agrees_trigger hook payload : agrees load (trigger hook payload).
Proof.
  intros s s' [(_ & _ & Hh) _] _. rewrite !trigger_trace. split; [|done].
  unfold trigger. rewrite !perform_bind, !gets_bind. cbn [outcome].
  rewrite Hh. apply notify_outcome.
Qed.

Lemma agrees_Array_map {A B} (l : list A) (f : A -> M B) :
  (∀ x, agrees load (f x)) → (∀ x, steady load (f x)) →
  agrees load (Array_map l f).
Proof.
  intros Hf Hs. induction l as [|x l IH]; cbn [Array_map]; [apply agrees_ret|].
  apply agrees_bind; [apply Hf | apply Hs |]. intros y.
  apply agrees_bind; [apply IH | by apply steady_Array_map |].
  intros ys. apply agrees_ret.
Qed.

Lemma agrees_Array_forEach {A} (l : list A) (f : A -> M unit) :
  (∀ x, agrees load (f x)) → (∀ x, steady load (f x)) →
  agrees load (Array_forEach l f).
Proof.
  intros Hf Hs. induction l as [|x l IH]; cbn [Array_forEach]; [apply agrees_ret|].
  apply agrees_bind; [apply Hf | apply Hs |]. intros _. apply IH.
Qed.

Lemma agrees_filter entries :
  agrees load (Array_filter entries (fun value => passesConfigFileFilters value)).
Proof.
  intros s s' [(Hf & _ & _) _] Hst.
  rewrite !Array_filter_stateless by (by rewrite ?Hf). cbn. by rewrite Hf.
Qed.

(** [require] evaluates to the module of the state and records the
    call. *)
Lemma require_run id s :
  outcome (require load id s) = module_at load s id
  ∧ trace (require load id s) = [Required id].
Proof.
  unfold require, module_at. rewrite perform_bind, gets_bind. cbn [outcome trace].
  destruct (require_cache s !! id); [done|]. by destruct (load id).
Qed.

Lemma agrees_require id : agrees load (require load id).
Proof.
  intros s s' [_ Hm] _.
  destruct (require_run id s) as [-> ->], (require_run id s') as [-> ->].
  by rewrite Hm.
Qed.

Lemma agrees_readdir cwd : agrees load (readdir readdirSync cwd).
Proof.
  unfold readdir. apply agrees_bind;
    [apply agrees_perform | apply inert_steady, perform_inert |].
  intros _. destruct (readdirSync cwd); [apply agrees_throw | apply agrees_ret].
Qed.

Lemma agrees_resolve_path path : agrees load (resolve_path path).
Proof.
  unfold resolve_path.
  apply agrees_bind; [apply agrees_readdir | apply inert_steady, readdir_inert |].
  intros entries. apply agrees_bind; [apply agrees_filter | |].
  { apply steady_Array_filter. intros x. apply steady_passesConfigFileFilters. }
  intros config_files.
  apply agrees_bind; [apply agrees_trigger | apply inert_steady, trigger_inert |].
  intros _. apply agrees_bind.
  { apply agrees_Array_map; intros file; [apply agrees_require | apply steady_require]. }
  { apply steady_Array_map. intros file. apply steady_require. }
  intros modules. unfold tap.
  apply agrees_bind; [apply agrees_trigger | apply inert_steady, trigger_inert |].
  intros _. apply agrees_ret.
Qed.

Lemma agrees_resolveConfigValidationSchema :
  agrees load resolveConfigValidationSchema.
Proof.
  unfold resolveConfigValidationSchema.
  apply agrees_bind; [|apply inert_steady, gets_inert|].
  { apply agrees_gets. by intros s s' (_ & ? & _). }
  intros paths. apply agrees_bind; [| |intros per_path; apply agrees_ret].
  - apply agrees_Array_map; intros path;
      [apply agrees_resolve_path | apply steady_resolve_path].
  - apply steady_Array_map. intros path. apply steady_resolve_path.
Qed.

Lemma agrees_validate_one config schema : agrees load (validate_one config schema).
Proof.
  unfold validate_one.
  apply agrees_bind; [apply agrees_perform | apply inert_steady, perform_inert |].
  intros _.
  apply agrees_bind; [apply agrees_trigger | apply inert_steady, trigger_inert |].
  intros _. destruct (error _); [apply agrees_throw | apply agrees_ret].
Qed.

Lemma agrees_validateEnv config : agrees load (validateEnv config).
Proof.
  unfold validateEnv.
  apply agrees_bind; [apply agrees_trigger | apply inert_steady, trigger_inert |].
  intros _. apply agrees_bind;
    [apply agrees_resolveConfigValidationSchema
    |apply steady_resolveConfigValidationSchema|].
  intros schemas. apply agrees_bind; [|apply inert_steady, loop_inert|].
  { apply agrees_Array_forEach; intros schema;
      [apply agrees_validate_one | apply inert_steady, validate_one_inert]. }
  intros _.
  apply agrees_bind; [apply agrees_trigger | apply inert_steady, trigger_inert |].
  intros _. apply agrees_ret.
Qed.

(** Two calls in a row agree when no filter is stateful: with filters
    that carry neither the [g] nor the [y] flag, a second call to
    [validateEnv] right after a first one, on the same environment bag and
    host, ends as the first did (returns, or throws the same value) after
    the same effects, the same schemas validated with the same results
    among them. *)
Theorem validateEnv_twice config s :
  Forall stateless (config_file_filters s) →
  let first := validateEnv config s in
  let second := validateEnv config (final first) in
  outcome second = outcome first
  ∧ trace second = trace first
  ∧ hook_payloads validate_schema (trace second)
    = hook_payloads validate_schema (trace first).
Proof.
  intros Hst first second.
  destruct (agrees_validateEnv config s (final first)) as [Ho Ht];
    [apply steady_validateEnv | done |].
  subst first second. by rewrite Ho, Ht.
Qed.

End Determinism.

(** ** Runs that return *)

Lemma bind_returns {A B} (m : M A) (k : A -> M B) s b :
  outcome (bind m k s) = inr b →
  ∃ a, outcome (m s) = inr a
       ∧ outcome (k a (final (m s))) = inr b
       ∧ trace (bind m k s) = trace (m s) ++ trace (k a (final (m s))).
Proof.
  rewrite bind_run. destruct (outcome (m s)) as [e|a]; cbn [outcome trace]; [done|].
  intros Hk. by exists a.
Qed.

Lemma trace_bind_Forall {A B} P (m : M A) (k : A -> M B) s :
  Forall P (trace (m s)) →
  (∀ a, outcome (m s) = inr a → Forall P (trace (k a (final (m s))))) →
  Forall P (trace (bind m k s)).
Proof.
  intros Hm Hk. rewrite bind_run.
  destruct (outcome (m s)) as [e|a]; cbn [trace]; [done|].
  apply Forall_app. split; [done | by apply Hk].
Qed.

Lemma emits_Array_map_in {A B} P (l : list A) (f : A -> M B) :
  (∀ x, x ∈ l → emits P (f x)) → emits P (Array_map l f).
Proof.
  induction l as [|x l IH]; intros Hf; cbn [Array_map]; [apply emits_ret|].
  apply emits_bind; [apply Hf, list_elem_of_here|]. intros y.
  apply emits_bind; [|intros ys; apply emits_ret].
  apply IH. intros x' Hx'. by apply Hf, list_elem_of_further.
Qed.

Lemma emits_Array_filter_in {A} P (l : list A) (p : A -> M bool) :
  (∀ x, x ∈ l → emits P (p x)) → emits P (Array_filter l p).
Proof.
  induction l as [|x l IH]; intros Hp; cbn [Array_filter]; [apply emits_ret|].
  apply emits_bind; [apply Hp, list_elem_of_here|]. intros b.
  apply emits_bind; [|intros ys; apply emits_ret].
  apply IH. intros x' Hx'. by apply Hp, list_elem_of_further.
Qed.

(** What [array.filter] returns is a sublist of the array. *)
Lemma Array_filter_returns_sublist {A} (l : list A) (p : A -> M bool) s kept :
  outcome (Array_filter l p s) = inr kept → kept `sublist_of` l.
Proof.
  induction l as [|x l IH] in s, kept |- *; cbn [Array_filter].
  - intros [= <-]. constructor.
  - intros H. apply bind_inr_inv in H as (b & _ & H).
    apply bind_inr_inv in H as (xs & Hxs & H). cbn in H. injection H as <-.
    apply IH in Hxs. destruct b; by constructor.
Qed.

Lemma hook_payloads_quiet hook t : Forall quiet_effect t → hook_payloads hook t = [].
Proof.
  induction 1 as [|e t He _ IH]; [reflexivity|].
  unfold hook_payloads. cbn [omap list_omap]. fold (hook_payloads hook t).
  rewrite IH. by destruct e.
Qed.

(** The effects of [passesConfigFileFilters(file)] are tests on [file]. *)
Lemma passesConfigFileFilters_tests file :
  emits (fun e => match e with Tested _ f _ => f = file | _ => False end)
        (passesConfigFileFilters file).
Proof.
  unfold passesConfigFileFilters. apply emits_bind; [apply emits_gets|].
  intros filters. apply emits_Array_some. intros filter s. by repeat constructor.
Qed.

(** ** Discovery that returns *)

(** Filtering a listing only tests filters, and only on its entries. *)
Lemma filter_tests entries s :
  Forall (fun e => match e with Tested _ file _ => file ∈ entries | _ => False end)
         (trace (Array_filter entries (fun value => passesConfigFileFilters value) s)).
Proof.
  apply emits_Array_filter_in. intros x Hx s'.
  eapply Forall_impl; [apply passesConfigFileFilters_tests|].
  intros [] He; try done. by subst.
Qed.

Lemma reported_file_lists_app t1 t2 :
  reported_file_lists (t1 ++ t2) = reported_file_lists t1 ++ reported_file_lists t2.
Proof. unfold reported_file_lists. by rewrite hook_payloads_app, omap_app. Qed.

Lemma required_ids_app t1 t2 :
  required_ids (t1 ++ t2) = required_ids t1 ++ required_ids t2.
Proof. apply omap_app. Qed.


Lemma required_ids_Listed cwd t : required_ids (Listed cwd :: t) = required_ids t.
Proof. reflexivity. Qed.

Lemma required_ids_Triggered h payload t :
  required_ids (Triggered h payload :: t) = required_ids t.
Proof. reflexivity. Qed.

Lemma required_ids_requires (f : string -> string) files :
  required_ids (map (fun file => Required (f file)) files) = map f files.
Proof. induction files as [|file rest IH]; [reflexivity|]. cbn. by f_equal. Qed.

Lemma quiet_requires (f : string -> string) files :
  Forall quiet_effect (map (fun file => Required (f file)) files).
Proof. apply Forall_fmap, Forall_forall. by intros. Qed.

Lemma required_ids_tests t :
  Forall (fun e => match e with Tested _ _ _ => True | _ => False end) t →
  required_ids t = [].
Proof.
  induction 1 as [|e t He _ IH]; [reflexivity|].
  unfold required_ids. cbn [omap list_omap]. fold (required_ids t).
  rewrite IH. by destruct e.
Qed.

Section Discovery.

Variable path_resolve : list string -> string.
Variable readdirSync : string -> Exn + list string.
Variable load : string -> Exn + ConfigModule.

Local Abbreviation resolve_path := (resolve_path path_resolve readdirSync load).
Local Abbreviation resolveConfigValidationSchema :=
  (resolveConfigValidationSchema path_resolve readdirSync load).
Local Abbreviation entries_of := (entries_of path_resolve readdirSync).
Local Abbreviation path_schemas := (path_schemas path_resolve load).
Local Abbreviation absolute :=
  (fun path file : string => path_resolve [path_resolve [path]; file]).

Lemma readdir_returns cwd s entries :
  outcome (readdir readdirSync cwd s) = inr entries →
  readdirSync cwd = inr entries.
Proof.
  unfold readdir. rewrite perform_bind. cbn [outcome].
  by destruct (readdirSync cwd); intros [= <-].
Qed.

Lemma readdir_trace cwd s : trace (readdir readdirSync cwd s) = [Listed cwd].
Proof.
  unfold readdir. rewrite perform_bind. cbn [trace].
  by destruct (readdirSync cwd).
Qed.

(** Loading the kept files, when it returns: each file yields the module
    of its path, and each path is required once, in order. *)
Lemma requires_return (f : string -> string) files s modules :
  outcome (Array_map files (fun file => require load (f file)) s) = inr modules →
  Forall2 (fun file m => module_at load s (f file) = inr m) files modules
  ∧ trace (Array_map files (fun file => require load (f file)) s)
    = map (fun file => Required (f file)) files.
Proof.
  induction files as [|file rest IH] in s, modules |- *; cbn [Array_map].
  - intros [= <-]. by split; [constructor|].
  - intros H. apply bind_returns in H as (m & Hm & H & ->).
    apply bind_returns in H as (ms & Hms & H & ->). cbn in H. injection H as <-.
    destruct (require_run load (f file) s) as [Ho ->].
    destruct (IH _ _ Hms) as [Hall ->]. split; [|by rewrite app_nil_r].
    constructor; [congruence|].
    eapply Forall2_impl; [exact Hall|]. intros file' m' <-. symmetry.
    apply (steady_require load (f file) s).
Qed.

Lemma not_null_modules (f : string -> string) files s modules :
  Forall2 (fun file m => module_at load s (f file) = inr m) files modules →
  not_null (map validationSchema_or_null modules)
  = omap (fun file => match module_at load s (f file) with
                      | inr m => validationSchema_or_null m
                      | inl _ => None
                      end) files.
Proof.
  induction 1 as [|file m files modules Hm _ IH]; [reflexivity|].
  unfold not_null in *. cbn [map omap list_omap]. rewrite Hm, IH. reflexivity.
Qed.

(** One resolution path, when its scan returns. *)
Lemma resolve_path_returns path s schemas :
  outcome (resolve_path path s) = inr schemas →
  ∃ kept tests,
    outcome (Array_filter (entries_of path)
               (fun value => passesConfigFileFilters value) s) = inr kept
    ∧ readdirSync (path_resolve [path]) = inr (entries_of path)
    ∧ schemas = path_schemas s path kept
    ∧ Forall (fun e => match e with
                       | Tested _ file _ => file ∈ entries_of path
                       | _ => False
                       end) tests
    ∧ trace (resolve_path path s)
      = Listed (path_resolve [path])
          :: tests
          ++ Triggered configuration_resolved_files (PayloadFiles kept)
          :: map (fun file => Required (absolute path file)) kept
          ++ [Triggered configuration_loaded_schemas (PayloadSchemas schemas)].
Proof.
  unfold resolve_path, tap. intros H.
  apply bind_returns in H as (entries & Hentries & H & ->).
  rewrite readdir_inert, readdir_trace in *.
  apply readdir_returns in Hentries.
  assert (He : entries_of path = entries) by (unfold entries_of; by rewrite Hentries).
  apply bind_returns in H as (kept & Hkept & H & ->).
  set (s1 := final (Array_filter entries _ s)) in *.
  apply bind_returns in H as ([] & _ & H & ->).
  rewrite trigger_inert, trigger_trace in *.
  apply bind_returns in H as (modules & Hmodules & H & ->).
  apply requires_return in Hmodules as [Hall ->].
  apply bind_returns in H as ([] & _ & H & ->).
  rewrite trigger_trace. cbn in H. injection H as <-.
  exists kept, (trace (Array_filter entries (fun value => passesConfigFileFilters value) s)).
  rewrite He. split_and!; [done|done| | |].
  - rewrite (not_null_modules (absolute path) kept s1 modules Hall).
    unfold path_schemas, exported_schema. apply list_omap_ext, Forall2_same_length_lookup_2; [done|].
    intros i x y Hx Hy. assert (x = y) as -> by congruence.
    assert (Hs1 : unchanged load s s1).
    { apply steady_Array_filter. intros v. apply steady_passesConfigFileFilters. }
    destruct Hs1 as [_ Hm]. by rewrite Hm.
  - apply (filter_tests entries s).
  - cbn [trace ret]. rewrite app_nil_r. reflexivity.
Qed.

(** What the trace of one returning scan tells. *)
Lemma scan_trace_readings cwd (f : string -> string) (entries : list string)
    tests kept schemas :
  Forall (fun e => match e with Tested _ file _ => file ∈ entries | _ => False end)
         tests →
  let t := Listed cwd
             :: tests
             ++ Triggered configuration_resolved_files (PayloadFiles kept)
             :: map (fun file => Required (f file)) kept
             ++ [Triggered configuration_loaded_schemas (PayloadSchemas schemas)] in
  hook_payloads configuration_resolved_files t = [PayloadFiles kept]
  ∧ reported_file_lists t = [kept]
  ∧ hook_payloads configuration_loaded_schemas t = [PayloadSchemas schemas]
  ∧ required_ids t = map f kept.
Proof.
  intros Htests t. unfold reported_file_lists.
  assert (Hquiet : Forall quiet_effect tests).
  { eapply Forall_impl; [exact Htests|]. by intros []. }
  assert (Hnoreq : required_ids tests = []).
  { apply required_ids_tests. eapply Forall_impl; [exact Htests|]. by intros []. }
  subst t.
  rewrite !hook_payloads_Listed, required_ids_Listed.
  rewrite !hook_payloads_app, required_ids_app.
  rewrite !hook_payloads_Triggered, required_ids_Triggered.
  rewrite !hook_payloads_app, required_ids_app, required_ids_requires, Hnoreq.
  rewrite !(hook_payloads_quiet _ tests), !(hook_payloads_quiet _ (map _ kept))
    by (done || apply quiet_requires).
  split_and!; [reflexivity | reflexivity | reflexivity |]. cbn. by rewrite app_nil_r.
Qed.

(** The resolution paths, when the scan of each returns. *)
Lemma resolve_paths_return paths s0 s per_path :
  unchanged load s0 s →
  outcome (Array_map paths resolve_path s) = inr per_path →
  let t := trace (Array_map paths resolve_path s) in
  let kept := reported_file_lists t in
  Forall2 (fun path files =>
             readdirSync (path_resolve [path]) = inr (entries_of path)
             ∧ ∃ s', unchanged load s0 s'
                     ∧ outcome (Array_filter (entries_of path)
                                  (fun value => passesConfigFileFilters value) s')
                       = inr files)
          paths kept
  ∧ per_path = zip_with (path_schemas s0) paths kept
  ∧ hook_payloads configuration_resolved_files t = map PayloadFiles kept
  ∧ hook_payloads configuration_loaded_schemas t = map PayloadSchemas per_path
  ∧ required_ids t
    = concat (zip_with (fun path files => map (absolute path) files) paths kept).
Proof.
  induction paths as [|path rest IH] in s, per_path |- *; intros Hs H; cbn [Array_map] in *.
  - injection H as <-. cbn. by split_and!; [constructor|..].
  - apply bind_returns in H as (schemas & Hscan & H & ->).
    apply bind_returns in H as (others & Hrest & H & ->).
    cbn in H. injection H as <-. cbn [trace ret]. rewrite app_nil_r.
    assert (Hs1 : unchanged load s0 (final (resolve_path path s))).
    { eapply unchanged_trans; [exact Hs | apply steady_resolve_path]. }
    destruct (IH _ _ Hs1 Hrest) as (Hkept & Hper & Hfiles & Hschemas & Hreq).
    destruct (resolve_path_returns path s schemas Hscan)
      as (kept & tests & Hfilter & Hlist & -> & Htests & ->).
    destruct (scan_trace_readings (path_resolve [path]) (absolute path)
                (entries_of path) tests kept (path_schemas s path kept) Htests)
      as (Hrf & Hrl & Hls & Hrq).
    cbv zeta in Hrf, Hrl, Hls, Hrq.
    rewrite reported_file_lists_app, !hook_payloads_app, !required_ids_app.
    rewrite Hrf, Hrl, Hls, Hrq.
    cbn [app zip_with concat map].
    assert (Hsame : path_schemas s path kept = path_schemas s0 path kept).
    { unfold path_schemas, exported_schema. destruct Hs as [_ Hm].
      apply list_omap_ext, Forall2_same_length_lookup_2; [done|].
      intros i x y Hx Hy. assert (x = y) as -> by congruence. by rewrite Hm. }
    rewrite Hsame. split_and!.
    + constructor; [|exact Hkept]. split; [done|]. by exists s.
    + by rewrite Hper.
    + by rewrite Hfiles.
    + by rewrite Hschemas.
    + by rewrite Hreq.
Qed.

Lemma resolve_returns s schemas :
  outcome (resolveConfigValidationSchema s) = inr schemas →
  ∃ per_path,
    outcome (Array_map (resolution_paths s) resolve_path s) = inr per_path
    ∧ schemas = concat per_path
    ∧ trace (resolveConfigValidationSchema s)
      = trace (Array_map (resolution_paths s) resolve_path s).
Proof.
  unfold resolveConfigValidationSchema. rewrite gets_bind. intros H.
  apply bind_returns in H as (per_path & Hmap & H & ->).
  cbn in H. injection H as <-. exists per_path.
  split_and!; [done | done |]. cbn [trace ret]. by rewrite app_nil_r.
Qed.

(** With stateless filters, the files kept for each path are the
    entries that match a filter. *)
Lemma kept_when_stateless s (paths : list string) (kept : list (list string)) :
  Forall stateless (config_file_filters s) →
  Forall2 (fun path files =>
             readdirSync (path_resolve [path]) = inr (entries_of path)
             ∧ ∃ s', unchanged load s s'
                     ∧ outcome (Array_filter (entries_of path)
                                  (fun value => passesConfigFileFilters value) s')
                       = inr files)
          paths kept →
  kept = map (fun path => List.filter (matches_some_filter (config_file_filters s))
                                      (entries_of path)) paths.
Proof.
  intros Hst. induction 1 as [|path files paths kept [_ (s' & Hs' & Hf)] _ IH];
    [reflexivity|].
  cbn [map]. rewrite <- IH. f_equal.
  destruct Hs' as [(Hfs & _ & _) _].
  rewrite Array_filter_stateless in Hf by (by rewrite Hfs).
  cbn in Hf. injection Hf as <-. by rewrite Hfs.
Qed.

(** C5: when discovery returns, the resolved list is the concatenation,
    over the resolution paths in stored order, of each path's schemas:
    those of the files kept for the path (the files reported by its
    [configuration_resolved_files] event, a sublist of the directory
    listing, hence in listing order), a file whose export is missing or
    falsy contributing nothing, with no deduplication. With stateless
    filters the kept files are the entries matching a filter, and the
    list is the one the spec describes. *)
Theorem resolved_schemas_are_concatenated s schemas :
  outcome (resolveConfigValidationSchema s) = inr schemas →
  let t := trace (resolveConfigValidationSchema s) in
  let kept := reported_file_lists t in
  Forall2 (fun path files => files `sublist_of` entries_of path)
          (resolution_paths s) kept
  ∧ schemas = concat (zip_with (path_schemas s) (resolution_paths s) kept)
  ∧ hook_payloads configuration_loaded_schemas t
    = map PayloadSchemas (zip_with (path_schemas s) (resolution_paths s) kept)
  ∧ (Forall stateless (config_file_filters s) →
     kept = map (fun path =>
                   List.filter (matches_some_filter (config_file_filters s))
                               (entries_of path))
                (resolution_paths s)
     ∧ schemas = specified_schemas path_resolve readdirSync load s).
Proof.
  intros H t kept.
  destruct (resolve_returns s schemas H) as (per_path & Hmap & -> & Ht).
  destruct (resolve_paths_return (resolution_paths s) s s per_path
              (unchanged_refl load s) Hmap)
    as (Hkept & Hper & _ & Hschemas & _).
  cbv zeta in Hkept, Hper, Hschemas. rewrite <- Ht in Hkept, Hper, Hschemas.
  fold t in Hkept, Hper, Hschemas. fold kept in Hkept, Hper, Hschemas.
  split_and!.
  - eapply Forall2_impl; [exact Hkept|].
    intros path files [_ (s' & _ & Hf)]. by eapply Array_filter_returns_sublist.
  - by rewrite Hper.
  - by rewrite Hschemas, Hper.
  - intros Hst. pose proof (kept_when_stateless s _ _ Hst Hkept) as Hk.
    split; [exact Hk|]. rewrite Hper, Hk. unfold specified_schemas.
    generalize (resolution_paths s). intros paths.
    induction paths as [|path paths IH]; [reflexivity|].
    cbn [map zip_with concat flat_map]. by rewrite IH.
Qed.

Local Abbreviation resolver_effect := (resolver_effect path_resolve readdirSync).
Local Abbreviation candidate := (candidate path_resolve readdirSync).

(** The effects of scanning one resolution path, whatever its outcome,
    given that the files its filtering keeps are [accept]ed. *)
Lemma resolve_path_effects (accept : string -> Prop) paths path s :
  path ∈ paths →
  (∀ kept, outcome (Array_filter (entries_of path)
                      (fun value => passesConfigFileFilters value) s) = inr kept →
           Forall accept kept) →
  Forall (resolver_effect accept paths) (trace (resolve_path path s)).
Proof.
  intros Hpath Haccept. unfold resolve_path, tap.
  apply trace_bind_Forall; [rewrite readdir_trace; by repeat constructor|].
  intros entries Hentries. rewrite readdir_inert.
  apply readdir_returns in Hentries.
  assert (He : entries_of path = entries) by (unfold entries_of; by rewrite Hentries).
  rewrite He in Haccept.
  apply trace_bind_Forall.
  { eapply Forall_impl; [apply filter_tests|].
    intros [] Hin; try done. exists path. by rewrite He. }
  intros kept Hkept.
  assert (Hcand : ∀ file, file ∈ kept → candidate accept paths path file).
  { intros file Hfile. split_and!; [done| |].
    - rewrite He. eapply elem_of_sublist; [exact Hfile|].
      by eapply Array_filter_returns_sublist.
    - eapply Forall_forall; [by apply Haccept | done]. }
  apply trace_bind_Forall.
  { rewrite trigger_trace. repeat constructor. intros file Hfile.
    exists path. by apply Hcand. }
  intros [] _. rewrite trigger_inert.
  apply trace_bind_Forall.
  { apply emits_Array_map_in. intros file Hfile s'.
    destruct (require_run load (absolute path file) s') as [_ ->].
    repeat constructor. exists path, file. split; [by apply Hcand | done]. }
  intros modules _.
  apply trace_bind_Forall; [rewrite trigger_trace; by repeat constructor|].
  intros [] _. constructor.
Qed.

Lemma resolve_paths_effects (accept : string -> Prop) paths l s :
  (∀ path, path ∈ l → path ∈ paths) →
  (∀ path s' kept,
     unchanged load s s' →
     outcome (Array_filter (entries_of path)
                (fun value => passesConfigFileFilters value) s') = inr kept →
     Forall accept kept) →
  Forall (resolver_effect accept paths) (trace (Array_map l resolve_path s)).
Proof.
  induction l as [|path rest IH] in s |- *; intros Hl Haccept; cbn [Array_map].
  { constructor. }
  apply trace_bind_Forall.
  { apply resolve_path_effects; [apply Hl, list_elem_of_here|].
    intros kept. apply Haccept, unchanged_refl. }
  intros schemas _. apply trace_bind_Forall; [|intros; constructor].
  apply IH.
  - intros p Hp. by apply Hl, list_elem_of_further.
  - intros p s' kept Hs'. apply Haccept.
    eapply unchanged_trans; [apply steady_resolve_path | exact Hs'].
Qed.

Lemma resolve_effects (accept : string -> Prop) s :
  (∀ path s' kept,
     unchanged load s s' →
     outcome (Array_filter (entries_of path)
                (fun value => passesConfigFileFilters value) s') = inr kept →
     Forall accept kept) →
  Forall (resolver_effect accept (resolution_paths s))
         (trace (resolveConfigValidationSchema s)).
Proof.
  intros Haccept. unfold resolveConfigValidationSchema. rewrite gets_bind.
  apply trace_bind_Forall; [|intros; constructor].
  by apply resolve_paths_effects.
Qed.

Lemma required_ids_elem id t : id ∈ required_ids t → Required id ∈ t.
Proof.
  intros H. apply list_elem_of_omap in H as (e & He & Hid).
  destruct e; try discriminate. by injection Hid as <-.
Qed.

Lemma reported_files_elem file t :
  file ∈ reported_files t →
  ∃ files, file ∈ files
           ∧ Triggered configuration_resolved_files (PayloadFiles files) ∈ t.
Proof.
  intros H. apply list_elem_of_In, in_concat in H as (files & Hfiles & Hfile).
  exists files. split; [by apply list_elem_of_In|].
  apply list_elem_of_In, list_elem_of_omap in Hfiles as (p & Hp & Hfiles).
  destruct p; try discriminate. injection Hfiles as <-.
  apply list_elem_of_omap in Hp as (e & He & Hp).
  destruct e as [h q| | | |]; try discriminate.
  destruct (decide (h = configuration_resolved_files)) as [->|]; [|discriminate].
  by injection Hp as ->.
Qed.

Lemma zip_with_map_r {A B C} (f : A -> B -> C) (g : A -> B) l :
  zip_with f l (map g l) = map (fun x => f x (g x)) l.
Proof. induction l as [|x l IH]; [reflexivity|]. cbn. by rewrite IH. Qed.

Lemma elem_of_concat_map {A B} (h : A -> list B) l x y :
  x ∈ l → y ∈ h x → y ∈ concat (map h l).
Proof.
  intros Hx Hy. apply list_elem_of_In, in_concat. exists (h x).
  split; [|by apply list_elem_of_In]. apply in_map. by apply list_elem_of_In.
Qed.

(** A search that succeeds from a later index succeeds from the start of
    the string, for a pattern without the [y] flag. *)
Lemma search_earlier m i fuel e :
  RegExpBuiltinExec_search m false (S i) fuel = Some e →
  ∃ e', RegExpBuiltinExec_search m false i (S fuel) = Some e'.
Proof. intros H. cbn. destruct (m i); eauto. Qed.

Lemma search_from_start m len start e :
  RegExpBuiltinExec_search m false start (S len - start) = Some e →
  ∃ e', RegExpBuiltinExec_search m false 0 (S len) = Some e'.
Proof.
  induction start as [|k IH] in e |- *; intros H.
  - rewrite Nat.sub_0_r in H. eauto.
  - destruct (len - k) as [|d] eqn:Hd.
    + replace (S len - S k) with 0 in H by lia. discriminate.
    + replace (S len - S k) with (S d) in H by lia.
      apply search_earlier in H as [e' H].
      replace (S (S d)) with (S len - k) in H by lia. by eapply IH.
Qed.

Lemma RegExp_test_passed filter str s :
  sticky filter = false →
  outcome (RegExp_test filter str s) = inr true →
  pattern_matches filter str = true.
Proof.
  intros Hy. unfold RegExp_test, pattern_matches. cbn [outcome]. rewrite Hy.
  destruct (RegExpBuiltinExec_search _ _ (RegExp_start filter s) _) as [e|] eqn:E;
    [|done].
  intros _. by apply search_from_start in E as [e' ->].
Qed.

Lemma Array_some_passed filters file s :
  Forall (fun filter => sticky filter = false) filters →
  outcome (Array_some filters (fun filter => RegExp_test filter file) s) = inr true →
  matches_some_filter filters file = true.
Proof.
  intros Hy. induction Hy as [|filter rest Hf _ IH] in s |- *;
    cbn [Array_some matches_some_filter existsb]; [done|].
  intros H. apply bind_inr_inv in H as (b & Hb & H). destruct b.
  - by rewrite (RegExp_test_passed filter file s).
  - apply IH in H. unfold matches_some_filter in H. rewrite H. apply orb_true_r.
Qed.

(** With filters without the [y] flag, what filtering keeps matches a
    filter. *)
Lemma nonsticky_accepts s path s' kept :
  Forall (fun filter => sticky filter = false) (config_file_filters s) →
  unchanged load s s' →
  outcome (Array_filter (entries_of path)
             (fun value => passesConfigFileFilters value) s') = inr kept →
  Forall (fun file => matches_some_filter (config_file_filters s) file = true) kept.
Proof.
  intros Hy [(Hfs & _ & _) _]. rewrite <- Hfs in *. clear Hfs.
  generalize (entries_of path). intros entries.
  induction entries as [|file rest IH] in s', kept, Hy |- *; cbn [Array_filter].
  { intros [= <-]. constructor. }
  intros H. apply bind_inr_inv in H as (b & Hb & H).
  apply bind_inr_inv in H as (xs & Hxs & H). cbn in H. injection H as <-.
  destruct (steady_passesConfigFileFilters load file s') as [(Hfs & _ & _) _].
  assert (Hrest : Forall (fun f => matches_some_filter (config_file_filters s') f = true) xs).
  { rewrite <- Hfs. eapply IH; [by rewrite Hfs | exact Hxs]. }
  destruct b; [|exact Hrest]. constructor; [|exact Hrest].
  unfold passesConfigFileFilters in Hb. rewrite gets_bind in Hb.
  by apply Array_some_passed in Hb.
Qed.

Lemma tested_files_elem file t :
  file ∈ tested_files t → ∃ filter passed, Tested filter file passed ∈ t.
Proof.
  intros H. apply list_elem_of_omap in H as (e & He & Hfile).
  destruct e; try discriminate. injection Hfile as <-. eauto.
Qed.

(** C6, as amended: a filter is only ever tested on an entry of a
    listed directory (a base filename). With filters without the [y]
    flag, an entry is loaded, or reported in a hook payload, only if its
    base filename matches a filter. With filters that carry neither the
    [g] nor the [y] flag, when discovery returns, every entry whose base
    filename matches a filter is loaded, by the path resolved from its
    directory, and reported. *)
Theorem entries_loaded_iff_matching s :
  let filters := config_file_filters s in
  let paths := resolution_paths s in
  let t := trace (resolveConfigValidationSchema s) in
  let matching := fun file => matches_some_filter filters file = true in
  (∀ file, file ∈ tested_files t → ∃ path, path ∈ paths ∧ file ∈ entries_of path)
  ∧ (Forall (fun filter => sticky filter = false) filters →
     (∀ id, id ∈ required_ids t →
            ∃ path file, candidate matching paths path file
                         ∧ id = absolute path file)
     ∧ (∀ file, file ∈ reported_files t →
                ∃ path, candidate matching paths path file))
  ∧ (Forall stateless filters →
     ∀ schemas path file,
       outcome (resolveConfigValidationSchema s) = inr schemas →
       candidate matching paths path file →
       absolute path file ∈ required_ids t ∧ file ∈ reported_files t).
Proof.
  intros filters paths t matching. split_and!.
  - intros file Hin. apply tested_files_elem in Hin as (filter & passed & Hin).
    assert (Hall : Forall (resolver_effect (fun _ => True) paths) t).
    { apply resolve_effects. intros path s' kept _ _. by apply Forall_forall. }
    rewrite Forall_forall in Hall. exact (Hall _ Hin).
  - intros Hy.
    assert (Hall : Forall (resolver_effect matching paths) t).
    { apply resolve_effects. intros path s' kept. by apply nonsticky_accepts. }
    rewrite Forall_forall in Hall. split.
    + intros id Hid. apply required_ids_elem in Hid. exact (Hall _ Hid).
    + intros file Hfile. apply reported_files_elem in Hfile as (files & Hfile & Hin).
      exact (Hall _ Hin file Hfile).
  - intros Hst schemas path file Hret (Hpath & Hentry & Hmatch).
    destruct (resolve_returns s schemas Hret) as (per_path & Hmap & _ & Ht).
    destruct (resolve_paths_return (resolution_paths s) s s per_path
                (unchanged_refl load s) Hmap)
      as (Hkept & _ & _ & _ & Hreq).
    cbv zeta in Hkept, Hreq. rewrite <- Ht in Hkept, Hreq. fold t in Hkept, Hreq.
    pose proof (kept_when_stateless s _ _ Hst Hkept) as Hk.
    assert (Hfile : file ∈ List.filter (matches_some_filter filters) (entries_of path)).
    { apply list_elem_of_In, filter_In. split; [by apply list_elem_of_In | done]. }
    split.
    + rewrite Hreq, Hk, zip_with_map_r.
      apply (elem_of_concat_map _ _ path); [done|].
      apply list_elem_of_In, (in_map (fun file => absolute path file)).
      by apply list_elem_of_In.
    + unfold reported_files. rewrite Hk.
      by apply (elem_of_concat_map _ _ path).
Qed.

End Discovery.

(** ** Discovery and repeated runs on the concrete host *)

Lemma default_filter_stateless : Forall stateless [default_config_file_filter].
Proof. by repeat constructor. Qed.

(** Three resolution paths, the first and the last the same directory:
    its two schemas appear twice, around the schema of the middle path,
    and the module without export contributes nothing. *)
Lemma resolved_schemas_are_concatenated_witness :
  let s := Fixture.object [default_config_file_filter]
             ["/app/config"; "/app/solo"; "/app/config"] in
  outcome (Fixture.resolveConfigValidationSchema s)
  = inr [Fixture.db_schema; Fixture.jwt_schema; Fixture.db_schema;
         Fixture.db_schema; Fixture.jwt_schema]
  ∧ reported_file_lists (trace (Fixture.resolveConfigValidationSchema s))
    = map (fun path =>
             List.filter (matches_some_filter [default_config_file_filter])
                         (entries_of Fixture.resolve Fixture.readdirSync path))
          ["/app/config"; "/app/solo"; "/app/config"]
  ∧ [Fixture.db_schema; Fixture.jwt_schema; Fixture.db_schema;
     Fixture.db_schema; Fixture.jwt_schema]
    = specified_schemas Fixture.resolve Fixture.readdirSync Fixture.load s.
Proof.
  intros s.
  assert (Hs : outcome (Fixture.resolveConfigValidationSchema s)
               = inr [Fixture.db_schema; Fixture.jwt_schema; Fixture.db_schema;
                      Fixture.db_schema; Fixture.jwt_schema])
    by (vm_compute; reflexivity).
  split; [exact Hs|].
  destruct (resolved_schemas_are_concatenated
              Fixture.resolve Fixture.readdirSync Fixture.load s _ Hs)
    as (_ & _ & _ & Hstateless).
  apply Hstateless, default_filter_stateless.
Defined.

(** In the project directory, [jwt.config.ts] matches the default filter:
    it is loaded by its resolved path and reported. *)
Lemma entries_loaded_iff_matching_witness :
  let t := trace (Fixture.resolveConfigValidationSchema Fixture.project) in
  Forall stateless (config_file_filters Fixture.project)
  ∧ candidate Fixture.resolve Fixture.readdirSync
      (fun file => matches_some_filter [default_config_file_filter] file = true)
      ["/app/config"] "/app/config" "jwt.config.ts"
  ∧ "/app/config/jwt.config.ts" ∈ required_ids t
  ∧ "jwt.config.ts" ∈ reported_files t.
Proof.
  intros t. split; [exact default_filter_stateless|].
  assert (Hc : candidate Fixture.resolve Fixture.readdirSync
                 (fun file => matches_some_filter [default_config_file_filter] file = true)
                 ["/app/config"] "/app/config" "jwt.config.ts").
  { split_and!.
    - apply list_elem_of_here.
    - apply list_elem_of_further, list_elem_of_here.
    - reflexivity. }
  split; [exact Hc|].
  destruct (entries_loaded_iff_matching
              Fixture.resolve Fixture.readdirSync Fixture.load Fixture.project)
    as (_ & _ & Hloaded).
  exact (Hloaded default_filter_stateless _ "/app/config" "jwt.config.ts"
           project_schemas Hc).
Defined.

(** C6, as stated, fails in two ways. With the default pattern under the
    [g] flag, [jwt.config.ts] matches the filter and is listed, yet it is
    neither reported nor loaded: the test starts at the [lastIndex] left by
    the match on [db.config.ts]. And with the default filter, in a directory
    whose first module throws on load, [db.config.ts] matches, is reported,
    and is never loaded. *)
Lemma matching_entries_not_loaded :
  (let s := Fixture.object [Fixture.global_filter] ["/app/config"] in
   let r := Fixture.resolveConfigValidationSchema s in
   entries_of Fixture.resolve Fixture.readdirSync "/app/config"
   = ["db.config.ts"; "jwt.config.ts"; "logger.config.js"; "readme.md"]
   ∧ matches_some_filter (config_file_filters s) "jwt.config.ts" = true
   ∧ outcome r = inr [Fixture.db_schema]
   ∧ reported_files (trace r) = ["db.config.ts"; "logger.config.js"]
   ∧ required_ids (trace r)
     = ["/app/config/db.config.ts"; "/app/config/logger.config.js"])
  ∧ (let s := Fixture.object [default_config_file_filter] ["/app/broken"] in
     let r := Fixture.resolveConfigValidationSchema s in
     entries_of Fixture.resolve Fixture.readdirSync "/app/broken"
     = ["bad.config.ts"; "db.config.ts"]
     ∧ matches_some_filter (config_file_filters s) "db.config.ts" = true
     ∧ outcome r = inl (ModuleLoadError "Cannot load /app/broken/bad.config.ts")
     ∧ reported_files (trace r) = ["bad.config.ts"; "db.config.ts"]
     ∧ required_ids (trace r) = ["/app/broken/bad.config.ts"]).
Proof. split; cbv zeta; split_and!; vm_compute; reflexivity. Qed.

(** Two calls in a row on the project, with [DB_PORT: 80]: both throw the
    same error after the same effects. *)
Lemma validateEnv_twice_witness :
  let first := Fixture.validateEnv Fixture.bad_port_env Fixture.project in
  let second := Fixture.validateEnv Fixture.bad_port_env (final first) in
  Forall stateless (config_file_filters Fixture.project)
  ∧ outcome second = outcome first
  ∧ trace second = trace first
  ∧ hook_payloads validate_schema (trace second)
    = hook_payloads validate_schema (trace first).
Proof.
  split; [exact default_filter_stateless|].
  exact (validateEnv_twice Fixture.resolve Fixture.readdirSync Fixture.load
           Fixture.bad_port_env Fixture.project default_filter_stateless).
Defined.

(** C8, which the code breaks: with the default pattern under the [g]
    flag and a directory holding one module, the first call loads the
    module and throws on its schema; the second call, on the same bag with
    the same paths, filters and files, loads nothing and returns the
    rejected bag as validated. [filter.test] in [passesConfigFileFilters]
    resumes from the [lastIndex] that the first call left on the pattern
    object, so the very file it accepted is now rejected. *)
Lemma second_call_differs_with_global_flag :
  let s := Fixture.object [Fixture.global_filter] ["/app/solo"] in
  let first := Fixture.validateEnv Fixture.bad_port_env s in
  let second := Fixture.validateEnv Fixture.bad_port_env (final first) in
  outcome first
  = inl (Error "Config validation error: DB_PORT must be greater than or equal to 1024")
  ∧ outcome second = inr Fixture.bad_port_env
  ∧ validated_schemas (trace first) = [Fixture.db_schema]
  ∧ validated_schemas (trace second) = []
  ∧ config_file_filters (final first) = config_file_filters s
  ∧ resolution_paths (final first) = resolution_paths s
  ∧ outcome second ≠ outcome first.
Proof.
  cbv zeta. split_and!; try (vm_compute; reflexivity).
  vm_compute. discriminate.
Qed.

Lemma project_bad_port_throws :
  outcome (Fixture.validateEnv Fixture.bad_port_env Fixture.project)
  = inl (Error "Config validation error: DB_PORT must be greater than or equal to 1024").
Proof. vm_compute. reflexivity. Qed.

(** A call to [validateEnv] that throws is no mutator: both sets are as
    before. *)
Lemma sets_change_only_through_mutators_witness :
  let failing := call_validateEnv Fixture.bad_port_env in
  let after := invoke Fixture.resolve Fixture.readdirSync Fixture.load
                 failing Fixture.project in
  is_set_mutator failing = false
  ∧ (∃ x, outcome (Fixture.validateEnv Fixture.bad_port_env Fixture.project) = inl x)
  ∧ config_file_filters after = config_file_filters Fixture.project
  ∧ resolution_paths after = resolution_paths Fixture.project.
Proof.
  cbv zeta. split; [reflexivity|]. split.
  { rewrite project_bad_port_throws. eauto. }
  destruct (sets_change_only_through_mutators
              Fixture.resolve Fixture.readdirSync Fixture.load Fixture.project)
    as [Hcalls _].
  by apply Hcalls.
Defined.

(** ** Further scenarios *)

(** The default filter rejects [readme.md] and accepts [db.config.ts];
    the filters are tested on the base filenames of the listing. *)
Example default_filter_scenario :
  pattern_matches default_config_file_filter "readme.md" = false
  ∧ pattern_matches default_config_file_filter "db.config.ts" = true
  ∧ tested_files (trace (Fixture.resolveConfigValidationSchema Fixture.project))
    = ["db.config.ts"; "jwt.config.ts"; "logger.config.js"; "readme.md"].
Proof. split_and!; vm_compute; reflexivity. Qed.

(** Both schemas pass on [DB_PORT: 5432], [JWT_SECRET: x]: two
    [validate_schema] events without error, one [validate_after], and the
    object is returned. The bag has keys neither schema knows about the
    other's, tolerated under [allowUnknown]. *)
Example passing_scenario :
  let r := Fixture.validateEnv Fixture.good_env Fixture.project in
  outcome r = inr Fixture.good_env
  ∧ hook_payloads validate_schema (trace r)
    = [PayloadSchema Fixture.db_schema Fixture.good_env None;
       PayloadSchema Fixture.jwt_schema Fixture.good_env None]
  ∧ hook_payloads validate_after (trace r) = [PayloadConfig Fixture.good_env]
  ∧ error (validate Fixture.db_schema Fixture.good_env {| allowUnknown := false |})
    = Some {| message := "JWT_SECRET is not allowed" |}.
Proof. cbv zeta. split_and!; vm_compute; reflexivity. Qed.

(** An observer that throws is not isolated: vetoing the first checked
    schema aborts a pass in which every schema passes, and [validate_after]
    does not fire. This is why the statements about complete passes take
    observers not to throw. *)
Example throwing_observer_aborts :
  let s := on validate_schema Fixture.veto Fixture.project in
  let r := Fixture.validateEnv Fixture.good_env s in
  outcome r = inl (ObserverError "veto")
  ∧ validated_schemas (trace r) = [Fixture.db_schema]
  ∧ hook_payloads validate_after (trace r) = [].
Proof. cbv zeta. split_and!; vm_compute; reflexivity. Qed.

(** A missing directory surfaces only when scanned, as the error of the
    listing. *)
Example missing_directory_scenario :
  let s := addResolutionPath "/app/nowhere" Fixture.project in
  outcome (Fixture.validateEnv Fixture.good_env s)
  = inl (FilesystemError "ENOENT: no such file or directory, scandir /app/nowhere").
Proof. vm_compute. reflexivity. Qed.

(** * Further properties of the class *)

(** ** Configuring the two sets *)

Lemma set_resolution_paths_same s : set_resolution_paths (resolution_paths s) s = s.
Proof. by destruct s. Qed.

Lemma set_config_file_filters_same s :
  set_config_file_filters (config_file_filters s) s = s.
Proof. by destruct s. Qed.

Lemma addResolutionPaths_state paths s :
  addResolutionPaths paths s = set_resolution_paths (resolution_paths s ++ paths) s.
Proof.
  unfold addResolutionPaths.
  induction paths as [|path rest IH] in s |- *; cbn [fold_left].
  - by rewrite app_nil_r, set_resolution_paths_same.
  - rewrite IH. unfold addResolutionPath, set_resolution_paths. cbn.
    by rewrite <- app_assoc.
Qed.

Lemma addConfigFileFilters_state filters s :
  addConfigFileFilters filters s
  = set_config_file_filters (config_file_filters s ++ filters) s.
Proof.
  unfold addConfigFileFilters.
  induction filters as [|filter rest IH] in s |- *; cbn [fold_left].
  - by rewrite app_nil_r, set_config_file_filters_same.
  - rewrite IH. unfold addConfigFileFilter, set_config_file_filters. cbn.
    by rewrite <- app_assoc.
Qed.

(** [addResolutionPaths] appends the given paths, in the order given,
    after the paths already there, keeps duplicates, and changes nothing
    else of the object; adding two batches one after the other is adding
    their concatenation, and adding no path changes nothing. *)
Theorem addResolutionPaths_appends paths s :
  addResolutionPaths paths s
  = set_resolution_paths (resolution_paths s ++ paths) s
  ∧ resolution_paths (addResolutionPaths paths s) = resolution_paths s ++ paths
  ∧ (∀ more, addResolutionPaths more (addResolutionPaths paths s)
             = addResolutionPaths (paths ++ more) s)
  ∧ (∀ path, addResolutionPaths [path] s = addResolutionPath path s)
  ∧ addResolutionPaths [] s = s.
Proof.
  split_and!.
  - apply addResolutionPaths_state.
  - by rewrite addResolutionPaths_state.
  - intros more. rewrite !addResolutionPaths_state.
    unfold set_resolution_paths. cbn. by rewrite app_assoc.
  - reflexivity.
  - reflexivity.
Qed.

(** [addConfigFileFilters] appends the given filters, in the order given,
    after the filters already there, without comparing them to those (two
    filters with the same pattern text may both be in the set), and
    changes nothing else of the object; two batches compose as their
    concatenation. *)
Theorem addConfigFileFilters_appends filters s :
  addConfigFileFilters filters s
  = set_config_file_filters (config_file_filters s ++ filters) s
  ∧ config_file_filters (addConfigFileFilters filters s)
    = config_file_filters s ++ filters
  ∧ (∀ more, addConfigFileFilters more (addConfigFileFilters filters s)
             = addConfigFileFilters (filters ++ more) s)
  ∧ (∀ filter, addConfigFileFilters [filter] s = addConfigFileFilter filter s)
  ∧ addConfigFileFilters [] s = s.
Proof.
  split_and!.
  - apply addConfigFileFilters_state.
  - by rewrite addConfigFileFilters_state.
  - intros more. rewrite !addConfigFileFilters_state.
    unfold set_config_file_filters. cbn. by rewrite app_assoc.
  - reflexivity.
  - reflexivity.
Qed.

Lemma filter_all {A} (P : A → Prop) `{!∀ x, Decision (P x)} (l : list A) :
  Forall P l → base.filter P l = l.
Proof.
  induction 1 as [|x l Hx _ IH]; [reflexivity|].
  by rewrite filter_cons_True, IH.
Qed.

(** Removing a path undoes adding it, and more: it also removes the
    occurrences that were there before. When the path was not in the set,
    adding then removing it gives the object back as it was. Removing is
    idempotent, removing an absent path changes nothing, and two removals
    commute. *)
Theorem removeResolutionPath_after_add path s :
  removeResolutionPath path (addResolutionPath path s) = removeResolutionPath path s
  ∧ (path ∉ resolution_paths s →
     removeResolutionPath path (addResolutionPath path s) = s
     ∧ removeResolutionPath path s = s)
  ∧ removeResolutionPath path (removeResolutionPath path s)
    = removeResolutionPath path s
  ∧ (∀ other, removeResolutionPath path (removeResolutionPath other s)
              = removeResolutionPath other (removeResolutionPath path s)).
Proof.
  assert (Hadd : removeResolutionPath path (addResolutionPath path s)
                 = removeResolutionPath path s).
  { unfold removeResolutionPath, addResolutionPath, set_resolution_paths. cbn.
    rewrite filter_app, filter_cons_False, filter_nil, app_nil_r by (by intros ?).
    reflexivity. }
  assert (Habsent : path ∉ resolution_paths s → removeResolutionPath path s = s).
  { intros Hnot. unfold removeResolutionPath.
    rewrite filter_all; [apply set_resolution_paths_same|].
    apply Forall_forall. by intros p Hp ->. }
  split_and!.
  - exact Hadd.
  - intros Hnot. split; [rewrite Hadd|]; by apply Habsent.
  - unfold removeResolutionPath, set_resolution_paths. cbn.
    rewrite list_filter_filter. f_equal. apply list_filter_iff. intros x. tauto.
  - intros other. unfold removeResolutionPath, set_resolution_paths. cbn.
    rewrite !list_filter_filter. f_equal. apply list_filter_iff. intros x. tauto.
Qed.

(** A path that is not in the set: adding then removing it gives the
    object back. *)
Lemma removeResolutionPath_after_add_witness :
  let s := Fixture.object [] ["/app/config"; "/app/solo"] in
  ("/app/replica" ∉ resolution_paths s)
  ∧ removeResolutionPath "/app/replica" (addResolutionPath "/app/replica" s) = s.
Proof.
  assert (Hnot : "/app/replica" ∉ resolution_paths
                   (Fixture.object [] ["/app/config"; "/app/solo"])).
  { intros Hin. apply list_elem_of_In in Hin. cbn in Hin. intuition discriminate. }
  split; [exact Hnot|].
  destruct (removeResolutionPath_after_add "/app/replica"
              (Fixture.object [] ["/app/config"; "/app/solo"])) as (_ & Habsent & _).
  by destruct (Habsent Hnot).
Defined.

(** Removing by a pattern object undoes adding a filter with the same
    pattern text, together with every filter of that text that was there
    before; when the set held no filter with that text, adding then
    removing gives the object back as it was. Removing is idempotent, and
    two removals commute. *)
Theorem removeConfigFileFilter_after_add filter other s :
  source other = source filter →
  removeConfigFileFilter other (addConfigFileFilter filter s)
  = removeConfigFileFilter other s
  ∧ (Forall (fun f => source f ≠ source filter) (config_file_filters s) →
     removeConfigFileFilter other (addConfigFileFilter filter s) = s)
  ∧ removeConfigFileFilter other (removeConfigFileFilter other s)
    = removeConfigFileFilter other s
  ∧ (∀ third, removeConfigFileFilter other (removeConfigFileFilter third s)
              = removeConfigFileFilter third (removeConfigFileFilter other s)).
Proof.
  intros Hsrc.
  assert (Hadd : removeConfigFileFilter other (addConfigFileFilter filter s)
                 = removeConfigFileFilter other s).
  { unfold removeConfigFileFilter, addConfigFileFilter, set_config_file_filters. cbn.
    rewrite filter_app, filter_cons_False, filter_nil, app_nil_r
      by (intros Hne; by apply Hne).
    reflexivity. }
  split_and!.
  - exact Hadd.
  - intros Hall. rewrite Hadd. unfold removeConfigFileFilter.
    rewrite filter_all; [apply set_config_file_filters_same|].
    by rewrite Hsrc.
  - unfold removeConfigFileFilter, set_config_file_filters. cbn.
    rewrite list_filter_filter. f_equal. apply list_filter_iff. intros x. tauto.
  - intros third. unfold removeConfigFileFilter, set_config_file_filters. cbn.
    rewrite !list_filter_filter. f_equal. apply list_filter_iff. intros x. tauto.
Qed.

(** The default filter added to a set that only holds [/readme/], then
    removed by another object with the same pattern text. *)
Lemma removeConfigFileFilter_after_add_witness :
  let s := Fixture.object [Fixture.readme_filter] ["/app/config"] in
  source Fixture.global_filter = source default_config_file_filter
  ∧ Forall (fun f => source f ≠ source default_config_file_filter)
           (config_file_filters s)
  ∧ removeConfigFileFilter Fixture.global_filter
      (addConfigFileFilter default_config_file_filter s) = s.
Proof.
  assert (Hall : Forall (fun f => source f ≠ source default_config_file_filter)
                   (config_file_filters
                      (Fixture.object [Fixture.readme_filter] ["/app/config"]))).
  { repeat constructor. discriminate. }
  split; [reflexivity|]. split; [exact Hall|].
  destruct (removeConfigFileFilter_after_add default_config_file_filter
              Fixture.global_filter
              (Fixture.object [Fixture.readme_filter] ["/app/config"]) eq_refl)
    as (_ & Hback & _).
  by apply Hback.
Defined.

Section MutatorFrame.

Variable path_resolve : list string -> string.
Variable readdirSync : string -> Exn + list string.
Variable load : string -> Exn + ConfigModule.

Local Abbreviation invoke := (invoke path_resolve readdirSync load).

(** An operation on the resolution path set leaves the config file
    filters alone, and an operation on the config file filter set leaves
    the resolution paths alone; neither registers or removes an observer,
    touches the [lastIndex] of a pattern object or the module cache. *)
Theorem mutators_change_their_own_set c s :
  (is_path_mutator c = true →
   config_file_filters (invoke c s) = config_file_filters s)
  ∧ (is_filter_mutator c = true →
     resolution_paths (invoke c s) = resolution_paths s)
  ∧ (is_set_mutator c = true →
     hooks (invoke c s) = hooks s
     ∧ lastIndex (invoke c s) = lastIndex s
     ∧ require_cache (invoke c s) = require_cache s).
Proof.
  split_and!; intros Hc; destruct c; try discriminate Hc; unfold invoke;
    rewrite ?addResolutionPaths_state, ?addConfigFileFilters_state; by split_and?.
Qed.

End MutatorFrame.

(** Adding two resolution paths to the project leaves its filters and
    its observers as they were. *)
Lemma mutators_change_their_own_set_witness :
  let c := call_addResolutionPaths ["/app/solo"; "/app/replica"] in
  let after := invoke Fixture.resolve Fixture.readdirSync Fixture.load c Fixture.project in
  is_path_mutator c = true
  ∧ config_file_filters after = config_file_filters Fixture.project
  ∧ hooks after = hooks Fixture.project.
Proof.
  cbv zeta. split; [reflexivity|].
  destruct (mutators_change_their_own_set
              Fixture.resolve Fixture.readdirSync Fixture.load
              (call_addResolutionPaths ["/app/solo"; "/app/replica"]) Fixture.project)
    as (Hpaths & _ & Hrest).
  split; [by apply Hpaths|]. by destruct (Hrest eq_refl) as (? & _).
Defined.

(** ** What a pass hands to its collaborators *)

Section Discipline.

Variable path_resolve : list string -> string.
Variable readdirSync : string -> Exn + list string.
Variable load : string -> Exn + ConfigModule.

Local Abbreviation resolve_path := (resolve_path path_resolve readdirSync load).
Local Abbreviation resolveConfigValidationSchema :=
  (resolveConfigValidationSchema path_resolve readdirSync load).
Local Abbreviation validateEnv := (validateEnv path_resolve readdirSync load).

Lemma emits_passesConfigFileFilters (P : Effect -> Prop) file :
  (∀ filter passed, P (Tested filter file passed)) →
  emits P (passesConfigFileFilters file).
Proof.
  intros HP. unfold passesConfigFileFilters. apply emits_bind; [apply emits_gets|].
  intros filters. apply emits_Array_some. intros filter s. by repeat constructor.
Qed.

Lemma emits_require (P : Effect -> Prop) id :
  P (Required id) → emits P (require load id).
Proof.
  intros HP s. destruct (require_run load id s) as [_ ->]. by repeat constructor.
Qed.

Lemma emits_readdir (P : Effect -> Prop) cwd :
  P (Listed cwd) → emits P (readdir readdirSync cwd).
Proof. intros HP s. rewrite readdir_trace. by repeat constructor. Qed.

(** The effects of discovery satisfy [P] as soon as the listings, the
    tests, the loads and the two discovery events do. *)
Lemma emits_resolve (P : Effect -> Prop) :
  (∀ cwd, P (Listed cwd)) →
  (∀ filter file passed, P (Tested filter file passed)) →
  (∀ id, P (Required id)) →
  (∀ files, P (Triggered configuration_resolved_files (PayloadFiles files))) →
  (∀ schemas, P (Triggered configuration_loaded_schemas (PayloadSchemas schemas))) →
  emits P resolveConfigValidationSchema.
Proof.
  intros Hl Ht Hr Hf Hs. unfold resolveConfigValidationSchema.
  apply emits_bind; [apply emits_gets|]. intros paths.
  apply emits_bind; [|intros per_path; apply emits_ret].
  apply emits_Array_map. intros path. unfold resolve_path, tap.
  apply emits_bind; [by apply emits_readdir|]. intros entries.
  apply emits_bind.
  { apply emits_Array_filter. intros x. by apply emits_passesConfigFileFilters. }
  intros config_files. apply emits_bind; [by apply emits_trigger|]. intros _.
  apply emits_bind.
  { apply emits_Array_map. intros file. by apply emits_require. }
  intros modules. apply emits_bind; [by apply emits_trigger|]. intros _.
  apply emits_ret.
Qed.

Lemma emits_validate_one (P : Effect -> Prop) config schema :
  P (Validated schema config {| allowUnknown := true |}) →
  P (Triggered validate_schema
       (PayloadSchema schema config (reported_error config schema))) →
  emits P (validate_one config schema).
Proof.
  intros Hv Ht s. rewrite validate_one_trace. unfold schema_events.
  by repeat constructor.
Qed.

Lemma emits_Array_forEach {A} P (l : list A) (f : A -> M unit) :
  (∀ x, emits P (f x)) → emits P (Array_forEach l f).
Proof.
  intros Hf. induction l as [|x l IH]; cbn [Array_forEach]; [apply emits_ret|].
  apply emits_bind; [apply Hf | intros _; apply IH].
Qed.

(** Whatever its outcome, a call to [validateEnv(config)] validates
    schemas on [config] itself and always with [allowUnknown: true]; the
    [validate_before], [validate_schema] and [validate_after] events carry
    [config] itself, a [validate_schema] event carries the schema just
    validated with the error it reported (or none), and the two discovery
    events carry a file list and a schema list. *)
Theorem validateEnv_hands_over_the_bag config s :
  Forall (well_formed_effect config) (trace (validateEnv config s)).
Proof.
  revert s. change (emits (well_formed_effect config) (validateEnv config)).
  unfold validateEnv.
  apply emits_bind; [by apply emits_trigger|]. intros _.
  apply emits_bind.
  { apply emits_resolve; cbn; eauto. }
  intros schemas. apply emits_bind.
  { apply emits_Array_forEach. intros schema.
    apply emits_validate_one; cbn; eauto. }
  intros _. apply emits_bind; [by apply emits_trigger|]. intros _.
  apply emits_ret.
Qed.

End Discipline.

(** ** The shape of a pass *)

Lemma listed_dirs_app t1 t2 : listed_dirs (t1 ++ t2) = listed_dirs t1 ++ listed_dirs t2.
Proof. apply omap_app. Qed.

Lemma fired_hooks_app t1 t2 : fired_hooks (t1 ++ t2) = fired_hooks t1 ++ fired_hooks t2.
Proof. apply omap_app. Qed.

Lemma listed_dirs_Triggered hook payload t :
  listed_dirs (Triggered hook payload :: t) = listed_dirs t.
Proof. reflexivity. Qed.

Lemma fired_hooks_Triggered hook payload t :
  fired_hooks (Triggered hook payload :: t) = hook :: fired_hooks t.
Proof. reflexivity. Qed.

Lemma fired_hooks_Listed cwd t : fired_hooks (Listed cwd :: t) = fired_hooks t.
Proof. reflexivity. Qed.

Lemma listed_dirs_none t : Forall not_listing t → listed_dirs t = [].
Proof.
  induction 1 as [|e t He _ IH]; [reflexivity|].
  unfold listed_dirs. cbn [omap list_omap]. fold (listed_dirs t).
  rewrite IH. by destruct e.
Qed.

Lemma fired_hooks_quiet t : Forall quiet_effect t → fired_hooks t = [].
Proof.
  induction 1 as [|e t He _ IH]; [reflexivity|].
  unfold fired_hooks. cbn [omap list_omap]. fold (fired_hooks t).
  rewrite IH. by destruct e.
Qed.

Lemma fired_hooks_loop config schemas :
  fired_hooks (flat_map (schema_events config) schemas)
  = replicate (length schemas) validate_schema.
Proof. induction schemas as [|schema rest IH]; [reflexivity|]. cbn. by rewrite <- IH. Qed.

Lemma not_listing_loop config schemas :
  Forall not_listing (flat_map (schema_events config) schemas).
Proof. induction schemas as [|schema rest IH]; cbn; by repeat constructor. Qed.

Section Shape.

Variable path_resolve : list string -> string.
Variable readdirSync : string -> Exn + list string.
Variable load : string -> Exn + ConfigModule.

Local Abbreviation resolve_path := (resolve_path path_resolve readdirSync load).
Local Abbreviation resolveConfigValidationSchema :=
  (resolveConfigValidationSchema path_resolve readdirSync load).
Local Abbreviation validateEnv := (validateEnv path_resolve readdirSync load).

(** Scanning a path lists its resolved directory, once, and nothing
    else. *)
Lemma resolve_path_listed path s :
  listed_dirs (trace (resolve_path path s)) = [path_resolve [path]].
Proof.
  unfold resolve_path, tap. rewrite bind_run, readdir_trace, readdir_inert.
  destruct (outcome (readdir readdirSync (path_resolve [path]) s)) as [x|entries];
    cbn [trace]; [reflexivity|].
  rewrite listed_dirs_app. cbn [listed_dirs omap list_omap app]. f_equal.
  apply listed_dirs_none. revert s.
  match goal with |- ∀ s, Forall _ (trace (?m s)) => change (emits not_listing m) end.
  apply emits_bind.
  { apply emits_Array_filter. intros x. by apply emits_passesConfigFileFilters. }
  intros config_files. apply emits_bind; [by apply emits_trigger|]. intros _.
  apply emits_bind.
  { apply emits_Array_map. intros file. by apply emits_require. }
  intros modules. apply emits_bind; [by apply emits_trigger|]. intros _.
  apply emits_ret.
Qed.

Lemma resolve_paths_listed paths s :
  ∃ n, listed_dirs (trace (Array_map paths resolve_path s))
       = map (fun path => path_resolve [path]) (take n paths)
       ∧ (∀ per_path, outcome (Array_map paths resolve_path s) = inr per_path →
                      take n paths = paths).
Proof.
  induction paths as [|path rest IH] in s |- *; cbn [Array_map].
  { exists 0. by split. }
  rewrite bind_run.
  destruct (outcome (resolve_path path s)) as [x|schemas] eqn:E; cbn [trace outcome].
  - exists 1. rewrite resolve_path_listed. cbn. rewrite take_0. by split.
  - destruct (IH (final (resolve_path path s))) as (n & Hn & Hall).
    exists (S n). rewrite bind_run. rewrite listed_dirs_app, resolve_path_listed.
    destruct (outcome (Array_map rest resolve_path _)) as [x|others] eqn:E';
      cbn [trace outcome ret]; rewrite ?app_nil_r, Hn; (split; [reflexivity|]).
    + by intros per_path.
    + intros per_path _. cbn. f_equal. by eapply Hall.
Qed.

Lemma resolve_trace s :
  trace (resolveConfigValidationSchema s)
  = trace (Array_map (resolution_paths s) resolve_path s).
Proof.
  unfold resolveConfigValidationSchema. rewrite gets_bind, bind_run.
  destruct (outcome (Array_map _ _ s)); cbn [trace ret]; by rewrite ?app_nil_r.
Qed.

(** How the trace of [validateEnv] is made: the opening event, then
    either nothing more (an observer of the opening event threw) or the
    effects of discovery followed by those of the validation loop and the
    closing event. *)
Lemma validateEnv_trace_parts config s :
  (∃ x, outcome (validateEnv config s) = inl x
        ∧ trace (validateEnv config s)
          = [Triggered validate_before (PayloadConfig config)])
  ∨ (∃ tail,
       trace (validateEnv config s)
       = Triggered validate_before (PayloadConfig config)
           :: trace (resolveConfigValidationSchema s) ++ tail
       ∧ Forall validation_effect tail).
Proof.
  unfold validateEnv. rewrite trigger_bind.
  case_trigger; [left; by eexists|]. right.
  rewrite bind_run.
  destruct (outcome (resolveConfigValidationSchema s)) as [x|schemas]; cbn [trace].
  { exists []. rewrite app_nil_r. by split. }
  rewrite bind_run, loop_inert.
  destruct (loop_trace_prefix config schemas (final (resolveConfigValidationSchema s)))
    as [n Hn].
  assert (Hloop : Forall validation_effect (flat_map (schema_events config) (take n schemas))).
  { generalize (take n schemas). intros l.
    induction l as [|schema l IH]; cbn; by repeat constructor. }
  destruct (outcome (Array_forEach schemas _ _)) as [x|[]]; cbn [trace].
  - eexists. split; [reflexivity | by rewrite Hn].
  - rewrite trigger_bind. case_trigger.
    + eexists. split; [reflexivity|].
      rewrite Hn. apply Forall_app. split; [done | by repeat constructor].
    + eexists. split; [reflexivity|].
      rewrite Hn. apply Forall_app. split; [done | by repeat constructor].
Qed.

Lemma listed_dirs_validation t : Forall validation_effect t → listed_dirs t = [].
Proof.
  intros H. apply listed_dirs_none. eapply Forall_impl; [exact H|].
  by intros [].
Qed.

(** [validateEnv] lists the resolved resolution paths, in their stored
    order and one listing per occurrence, stopping at the first scan that
    throws; no other directory is ever listed, and a pass that returns has
    listed them all. *)
Theorem validateEnv_lists_the_resolution_paths config s :
  let listed := listed_dirs (trace (validateEnv config s)) in
  let dirs := map (fun path => path_resolve [path]) (resolution_paths s) in
  (∃ n, listed = take n dirs)
  ∧ (∀ returned, outcome (validateEnv config s) = inr returned → listed = dirs).
Proof.
  cbv zeta.
  destruct (validateEnv_trace_parts config s) as [(x & Hx & Ht)|(tail & Ht & Htail)].
  { rewrite Ht, Hx. split; [by exists 0 | done]. }
  rewrite Ht, listed_dirs_Triggered, listed_dirs_app, (listed_dirs_validation tail Htail), app_nil_r.
  rewrite resolve_trace.
  destruct (resolve_paths_listed (resolution_paths s) s) as (n & Hn & Hall).
  rewrite Hn. split.
  - exists n. apply fmap_take.
  - intros returned H. unfold validateEnv in H.
    apply bind_inr_inv in H as ([] & _ & H). rewrite trigger_inert in H.
    apply bind_inr_inv in H as (schemas & Hr & _).
    destruct (resolve_returns _ _ _ s schemas Hr) as (per_path & Hmap & _).
    by rewrite (Hall per_path Hmap).
Qed.

(** A loop that returns has validated and announced every schema, in
    order, and none reported an error. *)
Lemma loop_returns config schemas s :
  outcome (Array_forEach schemas (validate_one config) s) = inr tt →
  Forall (fun schema => reported_error config schema = None) schemas
  ∧ trace (Array_forEach schemas (validate_one config) s)
    = flat_map (schema_events config) schemas.
Proof.
  induction schemas as [|schema rest IH]; cbn [Array_forEach]; [by split|].
  intros H. apply bind_returns in H as ([] & Hone & H & ->).
  rewrite validate_one_inert in *. rewrite validate_one_trace.
  destruct (IH H) as [Hall ->]. split; [|reflexivity].
  constructor; [|exact Hall].
  destruct (reported_error config schema) as [e|] eqn:He; [|reflexivity].
  destruct (validate_one_error config schema e s He) as [x Hx]. congruence.
Qed.

Lemma resolve_paths_fired paths s per_path :
  outcome (Array_map paths resolve_path s) = inr per_path →
  fired_hooks (trace (Array_map paths resolve_path s))
  = flat_map (fun _ => [configuration_resolved_files; configuration_loaded_schemas])
             paths.
Proof.
  induction paths as [|path rest IH] in s, per_path |- *; cbn [Array_map]; [done|].
  intros H. apply bind_returns in H as (schemas & Hscan & H & ->).
  apply bind_returns in H as (others & Hrest & _ & ->).
  cbn [trace ret flat_map]. rewrite app_nil_r, fired_hooks_app, (IH _ _ Hrest).
  f_equal.
  destruct (resolve_path_returns _ _ _ path s schemas Hscan)
    as (kept & tests & _ & _ & _ & Htests & ->).
  rewrite fired_hooks_Listed, fired_hooks_app, fired_hooks_quiet
    by (eapply Forall_impl; [exact Htests | by intros []]).
  cbn [app]. rewrite fired_hooks_Triggered, fired_hooks_app, fired_hooks_quiet
    by apply quiet_requires.
  reflexivity.
Qed.

(** The run of a [validateEnv] that returns. *)
Lemma validateEnv_returning_run config s returned :
  outcome (validateEnv config s) = inr returned →
  ∃ schemas,
    outcome (resolveConfigValidationSchema s) = inr schemas
    ∧ Forall (fun schema => reported_error config schema = None) schemas
    ∧ trace (validateEnv config s)
      = Triggered validate_before (PayloadConfig config)
          :: trace (resolveConfigValidationSchema s)
          ++ flat_map (schema_events config) schemas
          ++ [Triggered validate_after (PayloadConfig config)].
Proof.
  unfold validateEnv. intros H.
  apply bind_returns in H as ([] & _ & H & ->).
  rewrite trigger_inert, trigger_trace in *.
  apply bind_returns in H as (schemas & Hr & H & ->).
  apply bind_returns in H as ([] & Hloop & H & ->).
  rewrite loop_inert in *.
  apply bind_returns in H as ([] & _ & _ & ->).
  rewrite trigger_trace. cbn [trace ret]. rewrite app_nil_r.
  destruct (loop_returns config schemas _ Hloop) as [Hall ->].
  exists schemas. by split_and!.
Qed.

Lemma validated_on_return config s returned :
  outcome (validateEnv config s) = inr returned →
  ∃ schemas,
    outcome (resolveConfigValidationSchema s) = inr schemas
    ∧ validated_schemas (trace (validateEnv config s)) = schemas.
Proof.
  intros H.
  destruct (validateEnv_returning_run config s returned H) as (schemas & Hr & Hall & ->).
  exists schemas. split; [done|].
  rewrite validated_schemas_Triggered, !validated_schemas_app, validated_schemas_loop.
  rewrite (validated_schemas_discovery (trace (resolveConfigValidationSchema s)))
    by apply discovery_resolveConfigValidationSchema.
  cbn. by rewrite app_nil_r.
Qed.

(** A bag that [validateEnv] returns satisfies every resolved schema:
    when the call returns, discovery returned a schema list, every schema
    of the list was validated exactly once, in order, and none of them
    reported an error on the bag. *)
Theorem validateEnv_return_is_sound config s returned :
  outcome (validateEnv config s) = inr returned →
  ∃ schemas,
    outcome (resolveConfigValidationSchema s) = inr schemas
    ∧ validated_schemas (trace (validateEnv config s)) = schemas
    ∧ Forall (fun schema => reported_error config schema = None) schemas
    ∧ hook_payloads validate_schema (trace (validateEnv config s))
      = map (fun schema => PayloadSchema schema config None) schemas.
Proof.
  intros H.
  destruct (validated_on_return config s returned H) as (schemas & Hr & Hv).
  destruct (validateEnv_returning_run config s returned H) as (schemas' & Hr' & Hall & Ht).
  assert (schemas' = schemas) as -> by congruence.
  exists schemas. split_and!; [done|done|done|].
  rewrite Ht, hook_payloads_Triggered, !hook_payloads_app, hook_payloads_loop.
  rewrite (hook_payloads_discovery validate_schema
             (trace (resolveConfigValidationSchema s)))
    by (done || apply discovery_resolveConfigValidationSchema).
  cbn. rewrite app_nil_r. apply map_ext_Forall.
  eapply Forall_impl; [exact Hall|]. by intros schema ->.
Qed.

(** The events of a pass that returns fire in a fixed order: the opening
    event; then, for each resolution path in order, the file list followed
    by the schema list of that path; then one [validate_schema] per
    resolved schema; then the closing event. *)
Theorem validateEnv_event_order config s returned :
  outcome (validateEnv config s) = inr returned →
  fired_hooks (trace (validateEnv config s))
  = validate_before
      :: flat_map (fun _ => [configuration_resolved_files; configuration_loaded_schemas])
                  (resolution_paths s)
      ++ replicate (length (validated_schemas (trace (validateEnv config s))))
                   validate_schema
      ++ [validate_after].
Proof.
  intros H.
  destruct (validated_on_return config s returned H) as (schemas & Hr & Hv).
  destruct (validateEnv_returning_run config s returned H) as (schemas' & Hr' & _ & Ht).
  assert (schemas' = schemas) as -> by congruence.
  rewrite Hv, Ht, fired_hooks_Triggered.
  rewrite !fired_hooks_app, fired_hooks_loop. f_equal. f_equal.
  destruct (resolve_returns _ _ _ s schemas Hr) as (per_path & Hmap & _ & ->).
  by eapply resolve_paths_fired.
Qed.

(** With no resolution path, [validateEnv] accepts every bag: it fires
    the opening and the closing event and returns, without listing a
    directory, loading a module or validating anything (observers not
    throwing). *)
Theorem validateEnv_without_paths config s :
  resolution_paths s = [] →
  passive s →
  validateEnv config s
  = MkRun (inr config) s
          [Triggered validate_before (PayloadConfig config);
           Triggered validate_after (PayloadConfig config)].
Proof.
  intros Hnone Hp.
  assert (Hr : resolveConfigValidationSchema s = MkRun (inr []) s []).
  { unfold resolveConfigValidationSchema. rewrite gets_bind, Hnone. reflexivity. }
  rewrite (validateEnv_success _ _ _ config s []); [|done|by rewrite Hr|constructor].
  by rewrite Hr.
Qed.

End Shape.

Lemma project_accepts_good_env :
  outcome (Fixture.validateEnv Fixture.good_env Fixture.project)
  = inr Fixture.good_env.
Proof. vm_compute. reflexivity. Qed.

(** The project has one resolution path; a pass that returns has listed
    it, and nothing else. *)
Lemma validateEnv_lists_the_resolution_paths_witness :
  let r := Fixture.validateEnv Fixture.good_env Fixture.project in
  outcome r = inr Fixture.good_env ∧ listed_dirs (trace r) = ["/app/config"].
Proof.
  cbv zeta. split; [exact project_accepts_good_env|].
  destruct (validateEnv_lists_the_resolution_paths
              Fixture.resolve Fixture.readdirSync Fixture.load
              Fixture.good_env Fixture.project) as [_ Hall].
  exact (Hall _ project_accepts_good_env).
Defined.

(** On the project with [DB_PORT: 5432] and [JWT_SECRET: x] the call
    returns: both schemas were validated and announced without error. *)
Lemma validateEnv_return_is_sound_witness :
  let r := Fixture.validateEnv Fixture.good_env Fixture.project in
  outcome r = inr Fixture.good_env
  ∧ validated_schemas (trace r) = [Fixture.db_schema; Fixture.jwt_schema]
  ∧ hook_payloads validate_schema (trace r)
    = [PayloadSchema Fixture.db_schema Fixture.good_env None;
       PayloadSchema Fixture.jwt_schema Fixture.good_env None].
Proof.
  cbv zeta. split; [exact project_accepts_good_env|].
  destruct (validateEnv_return_is_sound
              Fixture.resolve Fixture.readdirSync Fixture.load
              Fixture.good_env Fixture.project Fixture.good_env
              project_accepts_good_env)
    as (schemas & Hr & Hv & _ & Hp).
  assert (schemas = [Fixture.db_schema; Fixture.jwt_schema]) as ->.
  { pose proof project_schemas as H. unfold Fixture.resolveConfigValidationSchema in H.
    congruence. }
  by split.
Defined.

(** The same call fires six events: the opening one, the two discovery
    events of the single resolution path, one [validate_schema] per schema
    and the closing one. *)
Lemma validateEnv_event_order_witness :
  let r := Fixture.validateEnv Fixture.good_env Fixture.project in
  outcome r = inr Fixture.good_env
  ∧ fired_hooks (trace r)
    = [validate_before; configuration_resolved_files; configuration_loaded_schemas;
       validate_schema; validate_schema; validate_after].
Proof.
  cbv zeta. split; [exact project_accepts_good_env|].
  unfold Fixture.validateEnv.
  rewrite (validateEnv_event_order
             Fixture.resolve Fixture.readdirSync Fixture.load
             Fixture.good_env Fixture.project Fixture.good_env
             project_accepts_good_env).
  vm_compute. reflexivity.
Defined.

(** An object without resolution path and without observer accepts a bag
    that the project's schemas reject. *)
Lemma validateEnv_without_paths_witness :
  let s := Fixture.object [default_config_file_filter] [] in
  resolution_paths s = [] ∧ passive s
  ∧ outcome (Fixture.validateEnv Fixture.bad_port_env s) = inr Fixture.bad_port_env.
Proof.
  cbv zeta.
  assert (Hp : passive (Fixture.object [default_config_file_filter] [])).
  { intros hook cb payload Hin. by inversion Hin. }
  split; [reflexivity|]. split; [exact Hp|].
  unfold Fixture.validateEnv.
  by rewrite (validateEnv_without_paths
                Fixture.resolve Fixture.readdirSync Fixture.load
                Fixture.bad_port_env
                (Fixture.object [default_config_file_filter] []) eq_refl Hp).
Defined.

(** ** Failures *)

Section Failures.

Variable path_resolve : list string -> string.
Variable readdirSync : string -> Exn + list string.
Variable load : string -> Exn + ConfigModule.

Local Abbreviation resolve_path := (resolve_path path_resolve readdirSync load).
Local Abbreviation resolveConfigValidationSchema :=
  (resolveConfigValidationSchema path_resolve readdirSync load).
Local Abbreviation validateEnv := (validateEnv path_resolve readdirSync load).
Local Abbreviation fail_fast := (fail_fast readdirSync load).
Local Abbreviation failure_of := (failure_of readdirSync load).

Variable s0 : State.

Lemma fail_fast_bind {A B} (m : M A) (k : A -> M B) :
  fail_fast s0 m → steady load m → (∀ a, fail_fast s0 (k a)) →
  fail_fast s0 (bind m k).
Proof.
  intros Hm Hsteady Hk s Hs t1 ev t2 x. rewrite bind_run.
  destruct (outcome (m s)) as [e|a] eqn:E; cbn [trace outcome].
  { intros Ht Hf. destruct (Hm s Hs t1 ev t2 x Ht Hf) as [-> Ho]. split; congruence. }
  assert (Hs' : unchanged load s0 (final (m s))).
  { eapply unchanged_trans; [exact Hs | apply Hsteady]. }
  intros Ht Hf. apply app_eq_app in Ht as [l [[Hl Hr]|[Hl Hr]]].
  - destruct l as [|ev' l]; cbn in Hr.
    + symmetry in Hr. by apply (Hk a _ Hs' [] ev t2 x).
    + injection Hr as <- ->.
      destruct (Hm s Hs t1 ev l x Hl Hf) as [_ Ho]. congruence.
  - by apply (Hk a _ Hs' l ev t2 x).
Qed.

Lemma fail_fast_silent {A} (m : M A) :
  (∀ s, trace (m s) = []) → fail_fast s0 m.
Proof.
  intros Hm s _ t1 ev t2 x Ht. rewrite Hm in Ht. by destruct t1.
Qed.

Lemma fail_fast_single {A} (m : M A) (ev : State -> Effect) :
  (∀ s, trace (m s) = [ev s]) →
  (∀ s x, unchanged load s0 s → failure_of s0 (ev s) = Some x →
          outcome (m s) = inl x) →
  fail_fast s0 m.
Proof.
  intros Hm Ho s Hs t1 ev' t2 x Ht Hf. rewrite Hm in Ht.
  destruct t1 as [|e1 t1]; [|by destruct t1].
  injection Ht as <- <-. split; [done | by apply Ho].
Qed.

Lemma fail_fast_trigger hook payload : fail_fast s0 (trigger hook payload).
Proof.
  apply (fail_fast_single _ (fun _ => Triggered hook payload)); [apply trigger_trace|].
  by intros s x _.
Qed.

Lemma fail_fast_readdir cwd : fail_fast s0 (readdir readdirSync cwd).
Proof.
  apply (fail_fast_single _ (fun _ => Listed cwd)); [apply readdir_trace|].
  intros s x _. unfold readdir, failure_of. rewrite perform_bind. cbn [outcome].
  destruct (readdirSync cwd); [by intros [= ->] | done].
Qed.

Lemma fail_fast_require id : fail_fast s0 (require load id).
Proof.
  apply (fail_fast_single _ (fun _ => Required id)).
  { intros s. by destruct (require_run load id s). }
  intros s x [_ Hm]. unfold failure_of. destruct (require_run load id s) as [-> _].
  rewrite Hm. destruct (module_at load s0 id); [by intros [= ->] | done].
Qed.

Lemma fail_fast_RegExp_test filter str : fail_fast s0 (RegExp_test filter str).
Proof.
  eapply (fail_fast_single _ (fun s => Tested filter str _)); [intros s; reflexivity|].
  by intros s x _.
Qed.

Lemma fail_fast_Array_map {A B} (l : list A) (f : A -> M B) :
  (∀ x, fail_fast s0 (f x)) → (∀ x, steady load (f x)) →
  fail_fast s0 (Array_map l f).
Proof.
  intros Hf Hs. induction l as [|x l IH]; cbn [Array_map].
  { by apply fail_fast_silent. }
  apply fail_fast_bind; [apply Hf | apply Hs |]. intros y.
  apply fail_fast_bind; [apply IH | by apply steady_Array_map |].
  intros ys. by apply fail_fast_silent.
Qed.

Lemma fail_fast_Array_filter {A} (l : list A) (p : A -> M bool) :
  (∀ x, fail_fast s0 (p x)) → (∀ x, steady load (p x)) →
  fail_fast s0 (Array_filter l p).
Proof.
  intros Hp Hs. induction l as [|x l IH]; cbn [Array_filter].
  { by apply fail_fast_silent. }
  apply fail_fast_bind; [apply Hp | apply Hs |]. intros b.
  apply fail_fast_bind; [apply IH | by apply steady_Array_filter |].
  intros ys. by apply fail_fast_silent.
Qed.

Lemma fail_fast_Array_some {A} (l : list A) (p : A -> M bool) :
  (∀ x, fail_fast s0 (p x)) → (∀ x, steady load (p x)) →
  fail_fast s0 (Array_some l p).
Proof.
  intros Hp Hs. induction l as [|x l IH]; cbn [Array_some].
  { by apply fail_fast_silent. }
  apply fail_fast_bind; [apply Hp | apply Hs |].
  intros [|]; [by apply fail_fast_silent | apply IH].
Qed.

Lemma fail_fast_Array_forEach {A} (l : list A) (f : A -> M unit) :
  (∀ x, fail_fast s0 (f x)) → (∀ x, steady load (f x)) →
  fail_fast s0 (Array_forEach l f).
Proof.
  intros Hf Hs. induction l as [|x l IH]; cbn [Array_forEach].
  { by apply fail_fast_silent. }
  apply fail_fast_bind; [apply Hf | apply Hs |]. intros _. apply IH.
Qed.

Lemma fail_fast_resolve : fail_fast s0 resolveConfigValidationSchema.
Proof.
  unfold resolveConfigValidationSchema.
  apply fail_fast_bind;
    [by apply fail_fast_silent | apply inert_steady, gets_inert |].
  intros paths. apply fail_fast_bind; [| |intros; by apply fail_fast_silent].
  2: { apply steady_Array_map. intros path. apply steady_resolve_path. }
  apply fail_fast_Array_map; [|intros path; apply steady_resolve_path].
  intros path. unfold resolve_path, tap.
  apply fail_fast_bind;
    [apply fail_fast_readdir | apply inert_steady, readdir_inert |].
  intros entries. apply fail_fast_bind.
  { apply fail_fast_Array_filter; intros x.
    - unfold passesConfigFileFilters. apply fail_fast_bind;
        [by apply fail_fast_silent | apply inert_steady, gets_inert |].
      intros filters. apply fail_fast_Array_some; intros filter;
        [apply fail_fast_RegExp_test | apply steady_RegExp_test].
    - apply steady_passesConfigFileFilters. }
  { apply steady_Array_filter. intros x. apply steady_passesConfigFileFilters. }
  intros config_files. apply fail_fast_bind;
    [apply fail_fast_trigger | apply inert_steady, trigger_inert |].
  intros _. apply fail_fast_bind.
  { apply fail_fast_Array_map; intros file;
      [apply fail_fast_require | apply steady_require]. }
  { apply steady_Array_map. intros file. apply steady_require. }
  intros modules. apply fail_fast_bind;
    [apply fail_fast_trigger | apply inert_steady, trigger_inert |].
  intros _. by apply fail_fast_silent.
Qed.

Lemma fail_fast_validateEnv config : fail_fast s0 (validateEnv config).
Proof.
  unfold validateEnv.
  apply fail_fast_bind;
    [apply fail_fast_trigger | apply inert_steady, trigger_inert |].
  intros _. apply fail_fast_bind;
    [apply fail_fast_resolve | apply steady_resolveConfigValidationSchema |].
  intros schemas. apply fail_fast_bind; [|apply inert_steady, loop_inert|].
  { apply fail_fast_Array_forEach; [|intros schema; apply inert_steady, validate_one_inert].
    intros schema. unfold validate_one.
    apply fail_fast_bind; [|apply inert_steady, perform_inert|].
    { eapply (fail_fast_single _ (fun _ => Validated _ _ _));
        [intros s; reflexivity | by intros s x _]. }
    intros _. apply fail_fast_bind;
      [apply fail_fast_trigger | apply inert_steady, trigger_inert |].
    intros _. destruct (error _); by apply fail_fast_silent. }
  intros _. apply fail_fast_bind;
    [apply fail_fast_trigger | apply inert_steady, trigger_inert |].
  intros _. by apply fail_fast_silent.
Qed.

End Failures.

Section FailureProperties.

Variable path_resolve : list string -> string.
Variable readdirSync : string -> Exn + list string.
Variable load : string -> Exn + ConfigModule.

Local Abbreviation resolveConfigValidationSchema :=
  (resolveConfigValidationSchema path_resolve readdirSync load).
Local Abbreviation validateEnv := (validateEnv path_resolve readdirSync load).
Local Abbreviation entries_of := (entries_of path_resolve readdirSync).

(** Nothing follows a failure of the host: when a directory listing
    throws, or the evaluation of a module that is not cached throws, that
    call is the last effect of the pass (no later path is listed, no later
    file loaded, no event fired, no schema validated) and [validateEnv]
    throws the very error of that call, unwrapped. *)
Theorem host_failure_ends_the_pass config s t1 ev t2 x :
  trace (validateEnv config s) = t1 ++ ev :: t2 →
  (∃ cwd, ev = Listed cwd ∧ readdirSync cwd = inl x)
  ∨ (∃ id, ev = Required id ∧ module_at load s id = inl x) →
  t2 = [] ∧ outcome (validateEnv config s) = inl x.
Proof.
  intros Ht Hev.
  apply (fail_fast_validateEnv path_resolve readdirSync load s config s
           (unchanged_refl load s) t1 ev t2 x Ht).
  destruct Hev as [(cwd & -> & Hx)|(id & -> & Hx)]; cbn; by rewrite Hx.
Qed.

End FailureProperties.

(** A directory whose first module fails to load: the failed [require] is
    the last effect of the pass, the second module of the directory is
    never loaded, and the loader's error is what [validateEnv] throws. *)
Lemma host_failure_ends_the_pass_witness :
  let s := Fixture.object [default_config_file_filter] ["/app/broken"; "/app/config"] in
  let r := Fixture.validateEnv Fixture.good_env s in
  module_at Fixture.load s "/app/broken/bad.config.ts"
  = inl (ModuleLoadError "Cannot load /app/broken/bad.config.ts")
  ∧ required_ids (trace r) = ["/app/broken/bad.config.ts"]
  ∧ listed_dirs (trace r) = ["/app/broken"]
  ∧ outcome r = inl (ModuleLoadError "Cannot load /app/broken/bad.config.ts").
Proof.
  cbv zeta. split; [reflexivity|]. split; [vm_compute; reflexivity|].
  split; [vm_compute; reflexivity|].
  eapply (host_failure_ends_the_pass
            Fixture.resolve Fixture.readdirSync Fixture.load Fixture.good_env
            (Fixture.object [default_config_file_filter] ["/app/broken"; "/app/config"])
            [Triggered validate_before (PayloadConfig Fixture.good_env);
             Listed "/app/broken";
             Tested default_config_file_filter "bad.config.ts" true;
             Tested default_config_file_filter "db.config.ts" true;
             Triggered configuration_resolved_files
               (PayloadFiles ["bad.config.ts"; "db.config.ts"])]
            (Required "/app/broken/bad.config.ts") []).
  - vm_compute. reflexivity.
  - right. exists "/app/broken/bad.config.ts". by split.
Defined.

(** ** An empty filter set *)

Lemma idle_readers t :
  Forall idle_effect t →
  tested_files t = [] ∧ required_ids t = [] ∧ validated_schemas t = []
  ∧ reported_files t = [].
Proof.
  induction 1 as [|e t He _ (IH1 & IH2 & IH3 & IH4)]; [done|].
  unfold tested_files, required_ids, validated_schemas, reported_files,
    reported_file_lists, hook_payloads in *.
  cbn [omap list_omap].
  destruct e as [hook payload| | | |]; try done.
  destruct (decide (hook = configuration_resolved_files)); [|done].
  cbn [omap list_omap]. destruct payload; try done.
  cbn in He. subst. by cbn [concat app].
Qed.

Section NoFilter.

Variable path_resolve : list string -> string.
Variable readdirSync : string -> Exn + list string.
Variable load : string -> Exn + ConfigModule.

Local Abbreviation resolve_path := (resolve_path path_resolve readdirSync load).
Local Abbreviation resolveConfigValidationSchema :=
  (resolveConfigValidationSchema path_resolve readdirSync load).
Local Abbreviation validateEnv := (validateEnv path_resolve readdirSync load).

(** Without filter, filtering tests nothing and keeps nothing. *)
Lemma filter_nothing entries s :
  config_file_filters s = [] →
  Array_filter entries (fun value => passesConfigFileFilters value) s
  = MkRun (inr []) s [].
Proof.
  intros H. rewrite Array_filter_stateless by (rewrite H; constructor).
  rewrite H. f_equal.
  - f_equal. by induction entries.
  - by induction entries.
Qed.

Lemma resolve_path_no_filter path s :
  config_file_filters s = [] →
  final (resolve_path path s) = s
  ∧ Forall idle_effect (trace (resolve_path path s))
  ∧ (∀ schemas, outcome (resolve_path path s) = inr schemas → schemas = [])
  ∧ (passive s →
     (∃ entries, readdirSync (path_resolve [path]) = inr entries) →
     outcome (resolve_path path s) = inr []).
Proof.
  intros H. unfold resolve_path, tap, readdir.
  rewrite bind_run, perform_bind.
  destruct (readdirSync (path_resolve [path])) as [x|entries];
    cbn [outcome final trace throw ret].
  { split_and!; [done | by repeat constructor | done |]. by intros _ [? ?]. }
  rewrite bind_run, filter_nothing by done. cbn [outcome final trace app].
  rewrite trigger_bind.
  destruct (outcome (trigger configuration_resolved_files (PayloadFiles []) s))
    as [x|[]] eqn:E1; cbn [outcome final trace].
  { split_and!; [done | by repeat constructor | done |].
    intros Hp. by rewrite trigger_passive in E1. }
  cbn [Array_map]. rewrite bind_run. cbn [outcome final trace ret app].
  change (not_null (map validationSchema_or_null [])) with (@nil ObjectSchema).
  rewrite trigger_bind.
  destruct (outcome (trigger configuration_loaded_schemas (PayloadSchemas []) s))
    as [x|[]] eqn:E2; cbn [outcome final trace ret].
  { split_and!; [done | by repeat constructor | done |].
    intros Hp. by rewrite trigger_passive in E2. }
  split_and!; [done | by repeat constructor | by intros ? [= <-] | done].
Qed.

Lemma resolve_paths_no_filter paths s :
  config_file_filters s = [] →
  final (Array_map paths resolve_path s) = s
  ∧ Forall idle_effect (trace (Array_map paths resolve_path s))
  ∧ (∀ per_path, outcome (Array_map paths resolve_path s) = inr per_path →
                 concat per_path = [])
  ∧ (passive s →
     (∀ path, path ∈ paths → ∃ entries, readdirSync (path_resolve [path]) = inr entries) →
     ∃ per_path, outcome (Array_map paths resolve_path s) = inr per_path).
Proof.
  intros H. induction paths as [|path rest (IHf & IHt & IHo & IHp)]; cbn [Array_map].
  { split_and!; [done | constructor | by intros ? [= <-] | by eexists]. }
  destruct (resolve_path_no_filter path s H) as (Hf & Ht & Ho & Hp).
  rewrite bind_run.
  destruct (outcome (resolve_path path s)) as [x|schemas] eqn:E;
    cbn [outcome final trace]; rewrite Hf.
  { split_and!; [done | done | done |]. intros Hpas Hls.
    specialize (Hp Hpas (Hls path (list_elem_of_here _ _))). discriminate. }
  rewrite bind_run.
  destruct (outcome (Array_map rest resolve_path s)) as [x|others] eqn:E';
    cbn [outcome final trace ret]; rewrite IHf, ?app_nil_r.
  - split_and!; [done | by apply Forall_app | done |]. intros Hpas Hls.
    destruct IHp as [? IHp]; [done | | discriminate].
    intros p Hin. by apply Hls, list_elem_of_further.
  - split_and!; [done | by apply Forall_app | | by eexists].
    intros ? [= <-]. cbn [concat]. by rewrite (Ho schemas), (IHo others).
Qed.

(** With an empty filter set (after [clearConfigFileFilters]),
    [validateEnv] tests no filter, reports no file, loads no module and
    validates nothing, and leaves the state as it was; it still lists the
    resolution paths, so that, observers not throwing, it accepts every
    bag exactly when every path can be listed. *)
Theorem validateEnv_without_filters config s :
  config_file_filters s = [] →
  let r := validateEnv config s in
  final r = s
  ∧ tested_files (trace r) = []
  ∧ reported_files (trace r) = []
  ∧ required_ids (trace r) = []
  ∧ validated_schemas (trace r) = []
  ∧ (passive s →
     (outcome r = inr config
      ↔ ∀ path, path ∈ resolution_paths s →
                ∃ entries, readdirSync (path_resolve [path]) = inr entries)).
Proof.
  intros H r.
  destruct (resolve_paths_no_filter (resolution_paths s) s H) as (Hf & Ht & Ho & Hp).
  assert (Hr : final (resolveConfigValidationSchema s) = s
               ∧ trace (resolveConfigValidationSchema s)
                 = trace (Array_map (resolution_paths s) resolve_path s)
               ∧ (∀ schemas, outcome (resolveConfigValidationSchema s) = inr schemas →
                             schemas = [])
               ∧ ((∃ per_path, outcome (Array_map (resolution_paths s) resolve_path s)
                               = inr per_path)
                  ↔ outcome (resolveConfigValidationSchema s) = inr [])).
  { unfold resolveConfigValidationSchema. rewrite gets_bind, bind_run.
    destruct (outcome (Array_map (resolution_paths s) resolve_path s))
      as [x|per_path] eqn:E; cbn [outcome final trace ret]; rewrite ?app_nil_r.
    - split_and!; [done | done | done |]. split; [by intros [? ?] | done].
    - unfold Array_flat. rewrite (Ho per_path eq_refl).
      split_and!; [done | done | by intros ? [= <-] |]. split; [done | by eexists]. }
  destruct Hr as (Hrf & Hrt & Hro & Hrp).
  assert (Hrun : final r = s ∧ Forall idle_effect (trace r)
                 ∧ (passive s →
                    (outcome r = inr config
                     ↔ outcome (resolveConfigValidationSchema s) = inr []))).
  { subst r. unfold validateEnv. rewrite trigger_bind.
    destruct (outcome (trigger validate_before (PayloadConfig config) s))
      as [x|[]] eqn:E0; cbn [outcome final trace].
    { split_and!; [done | by repeat constructor |].
      intros Hpas. by rewrite trigger_passive in E0. }
    rewrite bind_run.
    destruct (outcome (resolveConfigValidationSchema s)) as [x|schemas] eqn:E;
      cbn [outcome final trace]; rewrite Hrf, Hrt.
    { split_and!; [done | by constructor |]. by intros _. }
    rewrite (Hro schemas eq_refl). cbn [Array_forEach]. rewrite bind_run.
    cbn [outcome final trace ret app]. rewrite trigger_bind.
    destruct (outcome (trigger validate_after (PayloadConfig config) s))
      as [x|[]] eqn:E1; cbn [outcome final trace ret].
    - split_and!; [done | |].
      + constructor; [done|]. apply Forall_app. split; [done | by repeat constructor].
      + intros Hpas. by rewrite trigger_passive in E1.
    - split_and!; [done | | done].
      constructor; [done|]. apply Forall_app. split; [done | by repeat constructor]. }
  destruct Hrun as (Hfin & Hidle & Hout).
  destruct (idle_readers _ Hidle) as (H1 & H2 & H3 & H4).
  split_and!; try done.
  intros Hpas. rewrite (Hout Hpas), <- Hrp. split; [|by apply Hp].
  intros [per_path Hmap] path Hin.
  destruct (resolve_paths_return path_resolve readdirSync load
              (resolution_paths s) s s per_path (unchanged_refl load s) Hmap)
    as (Hall & _).
  cbv zeta in Hall.
  apply list_elem_of_lookup in Hin as [i Hi].
  eapply Forall2_lookup_l in Hall as (files & _ & Hls & _); [|exact Hi].
  by eexists.
Qed.

End NoFilter.

(** The project after [clearConfigFileFilters]: a bag that its schemas
    reject is accepted, no module being loaded. *)
Lemma validateEnv_without_filters_witness :
  let s := clearConfigFileFilters Fixture.project in
  let r := Fixture.validateEnv Fixture.bad_port_env s in
  config_file_filters s = []
  ∧ passive s
  ∧ required_ids (trace r) = []
  ∧ outcome r = inr Fixture.bad_port_env.
Proof.
  cbv zeta.
  destruct (validateEnv_without_filters
              Fixture.resolve Fixture.readdirSync Fixture.load
              Fixture.bad_port_env (clearConfigFileFilters Fixture.project) eq_refl)
    as (_ & _ & _ & Hreq & _ & Hout).
  split; [reflexivity|]. split; [exact project_passive|]. split; [exact Hreq|].
  apply (Hout project_passive). intros path Hin.
  apply list_elem_of_singleton in Hin as ->. by eexists.
Defined.

(** ** The filter of a fresh object *)

Lemma substring_all str : String.substring 0 (String.length str) str = str.
Proof.
  induction str as [|c str IH]; cbn [String.length String.substring];
    [done | by rewrite IH].
Qed.

Lemma append_nil (b : string) : "" +:+ b = b.
Proof. reflexivity. Qed.

Lemma append_cons c (a b : string) : String c a +:+ b = String c (a +:+ b).
Proof. reflexivity. Qed.

Lemma substring_after stem rest :
  String.substring (String.length stem)
    (String.length (stem +:+ rest) - String.length stem) (stem +:+ rest) = rest.
Proof.
  induction stem as [|c stem IH].
  - rewrite append_nil. cbn [String.length]. rewrite Nat.sub_0_r. apply substring_all.
  - rewrite append_cons. cbn [String.length String.substring Nat.sub]. exact IH.
Qed.

Lemma substring_suffix i str rest :
  rest ≠ "" →
  String.substring i (String.length str - i) str = rest →
  ∃ stem, str = stem +:+ rest.
Proof.
  intros Hrest. induction i as [|i IH] in str |- *.
  - rewrite Nat.sub_0_r, substring_all. intros <-. by exists "".
  - destruct str as [|c str]; cbn [String.length String.substring Nat.sub].
    + by intros <-.
    + intros H. destruct (IH _ H) as [stem ->]. by exists (String c stem).
Qed.

Lemma length_append (a b : string) :
  String.length (a +:+ b) = String.length a + String.length b.
Proof.
  induction a as [|c a IH]; [done|].
  rewrite append_cons. cbn [String.length Nat.add]. by rewrite IH.
Qed.

(** The search succeeds exactly when the matcher succeeds at one of the
    indices it tries. *)
Lemma search_finds m i fuel :
  (∃ e, RegExpBuiltinExec_search m false i fuel = Some e)
  ↔ ∃ j e, (i ≤ j < i + fuel)%nat ∧ m j = Some e.
Proof.
  induction fuel as [|fuel IH] in i |- *; cbn [RegExpBuiltinExec_search].
  - split; [by intros [? ?] | intros (j & e & Hj & _); lia].
  - destruct (m i) as [e|] eqn:E.
    + split; [|by eexists]. intros _. exists i, e. split; [lia | done].
    + rewrite IH. split; intros (j & e & Hj & Hm).
      * exists j, e. split; [lia | done].
      * exists j, e. split; [|done].
        destruct (decide (j = i)) as [->|]; [congruence | lia].
Qed.

Lemma config_suffix_matcher_spec str i :
  is_Some (config_suffix_matcher str i)
  ↔ String.substring i (String.length str - i) str = ".config.ts"
    ∨ String.substring i (String.length str - i) str = ".config.js".
Proof.
  unfold config_suffix_matcher. cbv zeta.
  destruct (String.eqb_spec (String.substring i (String.length str - i) str) ".config.ts")
    as [->|Hts]; cbn [orb].
  { split; [by left | by eexists]. }
  destruct (String.eqb_spec (String.substring i (String.length str - i) str) ".config.js")
    as [->|Hjs].
  { split; [by right | by eexists]. }
  split; [by intros [? ?] | by intros [?|?]].
Qed.

Lemma default_filter_matches file :
  pattern_matches default_config_file_filter file = true
  ↔ ∃ stem, file = stem +:+ ".config.ts" ∨ file = stem +:+ ".config.js".
Proof.
  unfold pattern_matches. cbn [matcher sticky default_config_file_filter].
  transitivity (∃ e, RegExpBuiltinExec_search (config_suffix_matcher file) false 0
                       (S (String.length file)) = Some e).
  { destruct (RegExpBuiltinExec_search _ _ _ _); split; try done; [by eexists|].
    by intros [? ?]. }
  rewrite search_finds. split.
  - intros (j & e & _ & Hm).
    assert (Hs : is_Some (config_suffix_matcher file j)) by by eexists.
    apply config_suffix_matcher_spec in Hs as [Hs|Hs];
      apply substring_suffix in Hs as [stem ->]; try done; exists stem; ((by left) || (by right)).
  - intros [stem Hfile].
    assert (Hs : is_Some (config_suffix_matcher file (String.length stem))).
    { apply config_suffix_matcher_spec.
      destruct Hfile as [->| ->]; [left|right]; apply substring_after. }
    destruct Hs as [e He]. exists (String.length stem), e. split; [|done].
    destruct Hfile as [->| ->]; rewrite length_append; cbn; lia.
Qed.

Section FreshObject.

Variable path_resolve : list string -> string.
Variable __dirname : string.

(** On a fresh object, [passesConfigFileFilters] accepts exactly the file
    names that end in [.config.ts] or [.config.js], whatever precedes the
    suffix (a name that is only the suffix included), by one test of the
    filter the constructor installed, and leaves the object as it was. *)
Theorem fresh_object_accepts_config_files file :
  let s := constructor path_resolve __dirname in
  ∃ passed,
    passesConfigFileFilters file s
    = MkRun (inr passed) s [Tested default_config_file_filter file passed]
    ∧ (passed = true
       ↔ ∃ stem, file = stem +:+ ".config.ts" ∨ file = stem +:+ ".config.js").
Proof.
  intros s. exists (pattern_matches default_config_file_filter file). split.
  - rewrite passesConfigFileFilters_stateless by apply default_filter_stateless.
    subst s. cbn [constructor addConfigFileFilters addResolutionPaths fold_left
                  addResolutionPath addConfigFileFilter set_resolution_paths
                  set_config_file_filters config_file_filters app
                  matches_some_filter existsb test_events].
    rewrite orb_false_r. by destruct (pattern_matches _ _).
  - apply default_filter_matches.
Qed.

End FreshObject.

(** ** Adding a filter *)

(** A test reads and writes [lastIndex] only: it runs the same way
    whatever the filter set is. *)
Lemma RegExp_test_frame filters filter file s :
  RegExp_test filter file (set_config_file_filters filters s)
  = MkRun (outcome (RegExp_test filter file s))
          (set_config_file_filters filters (final (RegExp_test filter file s)))
          (trace (RegExp_test filter file s)).
Proof.
  unfold RegExp_test, RegExp_start. cbn [lastIndex set_config_file_filters].
  cbn [outcome final trace]. by destruct (global filter || sticky filter).
Qed.

Lemma Array_some_frame filters (l : list RegExp) file s :
  let r := Array_some l (fun filter => RegExp_test filter file) s in
  Array_some l (fun filter => RegExp_test filter file) (set_config_file_filters filters s)
  = MkRun (outcome r) (set_config_file_filters filters (final r)) (trace r).
Proof.
  cbv zeta. induction l as [|f l IH] in s |- *; cbn [Array_some]; [done|].
  rewrite !bind_run, RegExp_test_frame. cbn [outcome final trace].
  destruct (outcome (RegExp_test f file s)) as [x|[]]; cbn [outcome final trace ret];
    [done | done |].
  by rewrite IH.
Qed.

(** [some] on an array with one more element at its end: the added
    element is reached only when no earlier one is accepted. *)
Lemma Array_some_snoc {A} (l : list A) (x : A) (p : A -> M bool) s :
  let r := Array_some l p s in
  Array_some (l ++ [x]) p s
  = match outcome r with
    | inr false =>
        MkRun (outcome (p x (final r))) (final (p x (final r)))
              (trace r ++ trace (p x (final r)))
    | _ => r
    end.
Proof.
  cbv zeta. induction l as [|y l IH] in s |- *; cbn [app Array_some].
  - rewrite bind_run. cbn [ret outcome final trace app].
    destruct (p x s) as [[e|[]] f t]; cbn [outcome final trace]; by rewrite ?app_nil_r.
  - rewrite !bind_run.
    destruct (outcome (p y s)) as [e|[]]; cbn [outcome final trace ret]; [done|done|].
    rewrite IH.
    destruct (outcome (Array_some l p (final (p y s)))) as [e|[]] eqn:E;
      cbn [outcome final trace]; by rewrite ?E, ?app_assoc.
Qed.

(** [addConfigFileFilter] puts the filter at the end of the set, so it is
    consulted last: a file that was accepted is still accepted, by the same
    tests and without the added filter being run, also when filters are
    stateful; a file that was rejected gets one more test, that of the
    added filter, which alone decides. *)
Theorem added_filter_is_consulted_last filter file s :
  let before := passesConfigFileFilters file s in
  let after := passesConfigFileFilters file (addConfigFileFilter filter s) in
  (outcome before = inr true →
   outcome after = inr true
   ∧ trace after = trace before
   ∧ lastIndex (final after) = lastIndex (final before))
  ∧ (outcome before = inr false →
     ∃ passed,
       outcome after = inr passed
       ∧ trace after = trace before ++ [Tested filter file passed]).
Proof.
  cbv zeta. unfold passesConfigFileFilters, addConfigFileFilter.
  rewrite !gets_bind. cbn [config_file_filters set_config_file_filters].
  rewrite Array_some_frame. cbn [outcome final trace].
  rewrite (Array_some_snoc (config_file_filters s) filter).
  split; intros H; rewrite H;
    cbn [outcome final trace lastIndex set_config_file_filters].
  - done.
  - eexists. split; reflexivity.
Qed.

(** On the project, [readme.md] is rejected; once [/readme/] is added it
    is accepted, by a second test; [db.config.ts] stays accepted by the one
    test of the default filter. *)
Lemma added_filter_is_consulted_last_witness :
  let s := addConfigFileFilter Fixture.readme_filter Fixture.project in
  outcome (passesConfigFileFilters "readme.md" Fixture.project) = inr false
  ∧ outcome (passesConfigFileFilters "db.config.ts" Fixture.project) = inr true
  ∧ outcome (passesConfigFileFilters "db.config.ts" s) = inr true
  ∧ (∃ passed,
       outcome (passesConfigFileFilters "readme.md" s) = inr passed
       ∧ trace (passesConfigFileFilters "readme.md" s)
         = trace (passesConfigFileFilters "readme.md" Fixture.project)
           ++ [Tested Fixture.readme_filter "readme.md" passed]).
Proof.
  cbv zeta. split; [reflexivity|]. split; [reflexivity|].
  destruct (added_filter_is_consulted_last
              Fixture.readme_filter "db.config.ts" Fixture.project) as [Hkept _].
  destruct (added_filter_is_consulted_last
              Fixture.readme_filter "readme.md" Fixture.project) as [_ Hnew].
  split; [by apply Hkept | by apply Hnew].
Defined.

(** ** The JWT options of the authentication module *)

(** The options built by [useFactory] carry one kind of key material and
    never both: the secret exactly when [jwt.encryption] is the string
    [symmetric], the key pair (both keys) in every other case, a missing
    or differently spelled [encryption] included; the sign options are
    the same for two configurations that agree on [audience],
    [expires_in], [issuer] and [algorithm], whatever their encryption and
    keys. *)
Theorem useFactory_separates_key_material (a b : AuthModule.AuthConfig) :
  let options := AuthModule.useFactory a in
  (is_Some (AuthModule.options_secret options)
   ↔ AuthModule.encryption (AuthModule.jwt a) = JsString "symmetric")
  ∧ (is_Some (AuthModule.options_publicKey options)
     ↔ AuthModule.options_secret options = None)
  ∧ (is_Some (AuthModule.options_privateKey options)
     ↔ AuthModule.options_secret options = None)
  ∧ (AuthModule.audience (AuthModule.jwt a) = AuthModule.audience (AuthModule.jwt b) →
     AuthModule.expires_in (AuthModule.jwt a) = AuthModule.expires_in (AuthModule.jwt b) →
     AuthModule.issuer (AuthModule.jwt a) = AuthModule.issuer (AuthModule.jwt b) →
     AuthModule.algorithm (AuthModule.jwt a) = AuthModule.algorithm (AuthModule.jwt b) →
     AuthModule.options_signOptions options
     = AuthModule.options_signOptions (AuthModule.useFactory b)).
Proof.
  cbv zeta. unfold AuthModule.useFactory.
  assert (Hsym : ∀ v, AuthModule.strict_equal v (JsString "symmetric") = true
                      ↔ v = JsString "symmetric").
  { intros [| | | |v]; cbn [AuthModule.strict_equal]; try done.
    rewrite String.eqb_eq. split; congruence. }
  split_and!.
  - rewrite <- Hsym. destruct (AuthModule.strict_equal _ _); cbn.
    + split; [done | by eexists].
    + split; [by intros [? ?] | done].
  - destruct (AuthModule.strict_equal (AuthModule.encryption (AuthModule.jwt a)) _); cbn.
    + split; [by intros [? ?] | done].
    + split; [done | by eexists].
  - destruct (AuthModule.strict_equal (AuthModule.encryption (AuthModule.jwt a)) _); cbn.
    + split; [by intros [? ?] | done].
    + split; [done | by eexists].
  - intros H1 H2 H3 H4.
    destruct (AuthModule.strict_equal (AuthModule.encryption (AuthModule.jwt a)) _),
             (AuthModule.strict_equal (AuthModule.encryption (AuthModule.jwt b)) _);
      cbn; by rewrite H1, H2, H3, H4.
Qed.

(** An HMAC configuration and a key-pair configuration with the same
    claims: the first yields the secret only, and both yield the same sign
    options. *)
Lemma useFactory_separates_key_material_witness :
  AuthModule.options_secret (AuthModule.useFactory AuthModule.hmac_config)
  = Some (JsString "s3cret")
  ∧ AuthModule.options_publicKey (AuthModule.useFactory AuthModule.hmac_config) = None
  ∧ AuthModule.options_signOptions (AuthModule.useFactory AuthModule.hmac_config)
    = AuthModule.options_signOptions (AuthModule.useFactory AuthModule.key_pair_config).
Proof.
  split; [reflexivity|]. split; [reflexivity|].
  by apply (useFactory_separates_key_material
              AuthModule.hmac_config AuthModule.key_pair_config).
Defined.
